(** * Segmented Sieve of Eratosthenes: [count_primes.c]

    A shallow embedding of [count_primes/count_primes.c] and the proofs of
    its specification.  The C functions are total on their inputs except
    for three ways of going wrong, which the embedding makes explicit in an
    error monad: a sieve access outside the represented range, a sieve
    created with a non-positive extent, and a loop that would run longer
    than the iteration budget given to it.  Every theorem about a result
    shows that none of the three happens.

    64-bit signed arithmetic is modelled on [Z] with the wrap-around
    written out ([wrap64]); the proofs show where it is the identity. *)

From Stdlib Require Import ZArith Znumtheory Lia List Bool.
From Stdlib Require Import PrimInt63 PrimFloat SpecFloat FloatOps.
From stdpp Require Import base tactics option list list_numbers.

Local Open Scope Z_scope.

(* ===================================================================== *)
(** ** 64-bit signed integers *)
(* ===================================================================== *)

Module Int64.

Definition min_signed : Z := - 2 ^ 63.
Definition max_signed : Z := 2 ^ 63 - 1.

(** [in_range z]: [z] is a value of type [int64_t]. *)
Definition in_range (z : Z) : Prop := min_signed <= z <= max_signed.

(** Two's complement wrap-around of a mathematical integer. *)
Definition wrap64 (z : Z) : Z := (z + 2 ^ 63) mod 2 ^ 64 - 2 ^ 63.

Definition add64 (a b : Z) : Z := wrap64 (a + b).
Definition sub64 (a b : Z) : Z := wrap64 (a - b).
Definition mul64 (a b : Z) : Z := wrap64 (a * b).
(** C's [%] truncates towards zero: the remainder has the dividend's sign. *)
Definition rem64 (a b : Z) : Z := wrap64 (Z.rem a b).

End Int64.
Export Int64.

(* ===================================================================== *)
(** ** Errors *)
(* ===================================================================== *)

Inductive error : Set :=
| OutOfBounds   (* a sieve cell outside [0, length) was read or written *)
| BadExtent     (* create_sieve was asked for a non-positive extent *)
| OutOfFuel.    (* a loop outlived its iteration budget *)

Inductive res (A : Type) : Type :=
| Ok (a : A)
| Err (e : error).
Arguments Ok {A} a.
Arguments Err {A} e.

Definition bind {A B : Type} (m : res A) (k : A -> res B) : res B :=
  match m with
  | Ok a => k a
  | Err e => Err e
  end.

Declare Scope res_scope.
Delimit Scope res_scope with res.
Notation "'do' x <- m ; k" := (bind m (fun x => k))
  (at level 10, x name, m at level 100, k at level 200,
   format "'[v' 'do'  x  <-  m ; '/' k ']'") : res_scope.
Local Open Scope res_scope.

(* ===================================================================== *)
(** ** The sieve structure ([sieve.h]) *)
(* ===================================================================== *)

(** Modelled from the spec: [sieve.h] / [sieve.c] are not part of the
    sources at hand; [count_primes.c] only calls them.  A sieve is a dense
    array of boolean cells together with its extent (the field
    [small_primes->length] read by the segment loop).  The C call sites
    always index a sieve from 0, so the origin is 0. *)
Record sieve_t : Type := mk_sieve {
  len : Z;
  cells : list bool
}.

(** Modelled from the spec: [create_sieve(extent)] needs a positive extent.
    Storage is assumed to be available; the cells are not yet meaningful. *)
Definition create_sieve (extent : Z) : res sieve_t :=
  if 0 <? extent
  then Ok (mk_sieve extent (replicate (Z.to_nat extent) false))
  else Err BadExtent.

(** Modelled from the spec: [init_sieve] sets every cell to "possibly prime". *)
Definition init_sieve (s : sieve_t) : sieve_t :=
  mk_sieve (len s) (replicate (length (cells s)) true).

Definition in_sieve (s : sieve_t) (v : Z) : bool :=
  (0 <=? v) && (v <? len s).

(** Modelled from the spec: [mark_composite] clears the cell of [v]; outside
    the represented range the access is an error. *)
Definition mark_composite (s : sieve_t) (v : Z) : res sieve_t :=
  if in_sieve s v
  then Ok (mk_sieve (len s) (<[Z.to_nat v := false]> (cells s)))
  else Err OutOfBounds.

(** Modelled from the spec: [prime_p] reads the cell of [v]. *)
Definition prime_p (s : sieve_t) (v : Z) : res bool :=
  if in_sieve s v
  then match cells s !! Z.to_nat v with
       | Some b => Ok b
       | None => Err OutOfBounds
       end
  else Err OutOfBounds.

(* ===================================================================== *)
(** ** [count_primes.c] *)
(* ===================================================================== *)

(** [const int64_t MAX_SIEVE_LENGTH = (int64_t)1 << 30;] *)
Definition MAX_SIEVE_LENGTH : Z := Z.shiftl 1 30.

(** [(int64_t) x] for a double [x]: the fractional part is discarded. *)
Definition double_to_int64 (x : float) : Z :=
  match Prim2SF x with
  | S754_finite sgn m e =>
      let a := match e with
               | Z0 => Zpos m
               | Zpos k => Z.shiftl (Zpos m) (Zpos k)
               | Zneg k => Z.shiftr (Zpos m) (Zpos k)
               end in
      wrap64 (if sgn then - a else a)
  | _ => 0
  end.

(** [int64_t upper_bound = (int64_t)((double)1.42 * ((int64_t)1 << 31));] *)
#[warnings="-inexact-float"]
Definition upper_bound : Z :=
  double_to_int64
    (PrimFloat.mul 1.42%float
                   (PrimFloat.of_uint63 (PrimInt63.lsl 1%uint63 31%uint63))).

Section find_small_primes.

Variable ub : Z.

(** [for (int64_t j = 2; i * j < upper_bound; ++j) mark_composite(sieve, i * j);] *)
Fixpoint mark_multiples (fuel : nat) (i j : Z) (sieve : sieve_t) : res sieve_t :=
  if mul64 i j <? ub then
    match fuel with
    | O => Err OutOfFuel
    | S fuel' =>
        do sieve' <- mark_composite sieve (mul64 i j);
        mark_multiples fuel' i (add64 j 1) sieve'
    end
  else Ok sieve.

(** [for (int64_t i = 2; i < upper_bound; ++i)
       { if (!prime_p(sieve, i)) continue; ... }] *)
Fixpoint scan_sieve (fuel : nat) (i : Z) (sieve : sieve_t) : res sieve_t :=
  if i <? ub then
    match fuel with
    | O => Err OutOfFuel
    | S fuel' =>
        do b <- prime_p sieve i;
        do sieve' <- (if b then mark_multiples (Z.to_nat ub) i 2 sieve
                      else Ok sieve);
        scan_sieve fuel' (add64 i 1) sieve'
    end
  else Ok sieve.

(** The body of [find_small_primes], for an arbitrary [upper_bound]. *)
Definition find_small_primes_upto : res sieve_t :=
  do sieve <- create_sieve ub;
  let sieve := init_sieve sieve in
  do sieve <- mark_composite sieve 0;
  do sieve <- mark_composite sieve 1;
  scan_sieve (Z.to_nat ub) 2 sieve.

End find_small_primes.

(** [static sieve_t* find_small_primes(void)] *)
Definition find_small_primes : res sieve_t := find_small_primes_upto upper_bound.

Section count_primes_in_interval_helper.

Variables start length : Z.

(** The index [kp_index] at which the marking for the prime [p] begins:
    [int64_t kp_index = start % p;
     if (0 != kp_index) kp_index = p - kp_index;
     if (start + kp_index == p) kp_index += p;] *)
Definition first_index (p : Z) : Z :=
  let kp_index := rem64 start p in
  let kp_index := if negb (0 =? kp_index) then sub64 p kp_index else kp_index in
  if add64 start kp_index =? p then add64 kp_index p else kp_index.

(** [for ( ; kp_index < length; kp_index += p) mark_composite(large_primes, kp_index);] *)
Fixpoint mark_from (fuel : nat) (p kp_index : Z) (large_primes : sieve_t)
  : res sieve_t :=
  if kp_index <? length then
    match fuel with
    | O => Err OutOfFuel
    | S fuel' =>
        do large_primes' <- mark_composite large_primes kp_index;
        mark_from fuel' p (add64 kp_index p) large_primes'
    end
  else Ok large_primes.

Variable small_primes : sieve_t.

(** [for (int64_t p = 2; p < small_primes->length; ++p)
       { if (!prime_p(small_primes, p)) continue; ... }] *)
Fixpoint sieve_segment (fuel : nat) (p : Z) (large_primes : sieve_t)
  : res sieve_t :=
  if p <? len small_primes then
    match fuel with
    | O => Err OutOfFuel
    | S fuel' =>
        do b <- prime_p small_primes p;
        do large_primes' <-
          (if b then mark_from (Z.to_nat length) p (first_index p) large_primes
           else Ok large_primes);
        sieve_segment fuel' (add64 p 1) large_primes'
    end
  else Ok large_primes.

(** [for (int64_t i = 0; i < length; ++i)
       if (prime_p(large_primes, i)) ++num_primes;] *)
Fixpoint count_unmarked (fuel : nat) (i num_primes : Z) (large_primes : sieve_t)
  : res Z :=
  if i <? length then
    match fuel with
    | O => Err OutOfFuel
    | S fuel' =>
        do b <- prime_p large_primes i;
        count_unmarked fuel' (add64 i 1)
          (if b then add64 num_primes 1 else num_primes) large_primes
    end
  else Ok num_primes.

(** The segment sieve as it stands when the marking loop is over. *)
Definition segment_sieve : res sieve_t :=
  do large_primes <- create_sieve length;
  let large_primes := init_sieve large_primes in
  sieve_segment (Z.to_nat (len small_primes)) 2 large_primes.

(** [static int64_t count_primes_in_interval_helper(start, length, small_primes)].
    The [tbassert]s are compiled out ([NDEBUG] is defined above the
    include) and [destroy_sieve] has no observable effect here. *)
Definition count_primes_in_interval_helper : res Z :=
  do large_primes <- segment_sieve;
  count_unmarked (Z.to_nat length) 0 0 large_primes.

End count_primes_in_interval_helper.

(** The control flow of [count_primes_in_interval], with the constant
    [MAX_SIEVE_LENGTH], the small-primes table and what is done with each
    segment left open: [visit small_primes start length acc] stands for
    [num_primes += count_primes_in_interval_helper(start, length, small_primes)]. *)
Section interval_traversal.

Variable max_sieve_length : Z.
Variable small_primes_table : res sieve_t.
Context {A : Type}.
Variable visit : sieve_t -> Z -> Z -> A -> res A.
Variable zero : A.

(** [while (length > MAX_SIEVE_LENGTH) { ...; start += MAX_SIEVE_LENGTH;
      length -= MAX_SIEVE_LENGTH; }] followed by the final segment. *)
Fixpoint segment_loop (fuel : nat) (small_primes : sieve_t)
                      (start length : Z) (num_primes : A) : res A :=
  if max_sieve_length <? length then
    match fuel with
    | O => Err OutOfFuel
    | S fuel' =>
        do num_primes' <- visit small_primes start max_sieve_length num_primes;
        segment_loop fuel' small_primes
                     (add64 start max_sieve_length)
                     (sub64 length max_sieve_length) num_primes'
    end
  else visit small_primes start length num_primes.

(** The body of [count_primes_in_interval]: the two early returns, the
    clamping of [start] to 2 ([length -= 2 - start; start = 2;]), the
    construction of the table, and the loop. *)
Definition traverse_interval (start length : Z) : res A :=
  if length <=? 0 then Ok zero
  else if add64 start length <=? 2 then Ok zero
  else
    let length := if start <? 2 then sub64 length (sub64 2 start) else length in
    let start := if start <? 2 then 2 else start in
    do small_primes <- small_primes_table;
    segment_loop (Z.to_nat length) small_primes start length zero.

End interval_traversal.

(** [num_primes += count_primes_in_interval_helper(start, length, small_primes);] *)
Definition add_segment_count (small_primes : sieve_t) (start length num_primes : Z)
  : res Z :=
  do n <- count_primes_in_interval_helper start length small_primes;
  Ok (add64 num_primes n).

Definition count_primes_in_interval_with
    (max_sieve_length : Z) (small_primes_table : res sieve_t) (start length : Z)
  : res Z :=
  traverse_interval max_sieve_length small_primes_table add_segment_count 0
                    start length.

(** [int64_t count_primes_in_interval(int64_t start, int64_t length)] *)
Definition count_primes_in_interval (start length : Z) : res Z :=
  count_primes_in_interval_with MAX_SIEVE_LENGTH find_small_primes start length.

(** The arguments [(start, length)] of the calls of
    [count_primes_in_interval_helper], in the order they are made. *)
Definition record_call (_ : sieve_t) (start length : Z) (calls : list (Z * Z))
  : res (list (Z * Z)) :=
  Ok (calls ++ [(start, length)]).

Definition helper_calls_with
    (max_sieve_length : Z) (small_primes_table : res sieve_t) (start length : Z)
  : res (list (Z * Z)) :=
  traverse_interval max_sieve_length small_primes_table record_call []
                    start length.

Definition helper_calls (start length : Z) : res (list (Z * Z)) :=
  helper_calls_with MAX_SIEVE_LENGTH find_small_primes start length.

(* ===================================================================== *)
(** ** Reference notions: primality and the number of primes in a range *)
(* ===================================================================== *)

(** Trial division: [n] is at least 2 and no [d] in [[2, n)] divides it. *)
Definition trialdiv_prime_p (n : Z) : bool :=
  (2 <=? n) && forallb (fun d => negb (n mod d =? 0)) (seqZ 2 (n - 2)).

(** The number of primes in [[start, start + length)]. *)
Definition prime_count (start length : Z) : Z :=
  Z.of_nat (List.length (List.filter trialdiv_prime_p (seqZ start length))).

(** The number of cells of a sieve that still read "possibly prime". *)
Definition count_true (l : list bool) : Z :=
  Z.of_nat (List.length (List.filter id l)).

(** *** The naive sieve of the specification

    From the specification's words: create and initialise a sieve over
    [[0, n)]; mark 0 and 1 composite; for each [i] from 2 to [n - 1], if
    [i] is still marked possibly prime, mark every multiple [i * j], for
    [j >= 2] with [i * j < n], as composite.  A cell is prime if and only
    if it remains true. *)

Definition strike (s : list bool) (v : Z) : list bool :=
  <[Z.to_nat v := false]> s.

(** The multiples [i * j] with [j >= 2] and [i * j < n], all struck. *)
Definition naive_strike_multiples (n i : Z) (s : list bool) : list bool :=
  foldl strike s ((fun j => i * j) <$> seqZ 2 ((n - 1) / i - 1)).

Definition naive_step (n : Z) (s : list bool) (i : Z) : list bool :=
  if default false (s !! Z.to_nat i) then naive_strike_multiples n i s else s.

Definition naive_sieve (n : Z) : list bool :=
  foldl (naive_step n)
        (strike (strike (replicate (Z.to_nat n) true) 0) 1)
        (seqZ 2 (n - 2)).

(** Counting [[start, start + length)] in one unsegmented pass: the naive
    sieve over [[0, start + length)], read from [start] on. *)
Definition naive_count (start length : Z) : Z :=
  count_true (drop (Z.to_nat start) (naive_sieve (start + length))).

(** [no_divisor_upto fuel d n]: none of [d, d + 1, ...] up to the square
    root of [n] divides [n] (false when the budget does not reach it). *)
Fixpoint no_divisor_upto (fuel : nat) (d n : Z) : bool :=
  if n <? d * d then true
  else match fuel with
       | O => false
       | S fuel' => negb (n mod d =? 0) && no_divisor_upto fuel' (d + 1) n
       end.

(** The extent the specification gives for the small-primes table:
    the ceiling of [1.42 * 2^31], with 1.42 read as the rational 142/100. *)
Definition ceil_extent : Z := - ((- (142 * 2 ^ 31)) / 100).

(* ===================================================================== *)
(** ** Vocabulary of the proofs *)
(* ===================================================================== *)

(** The extent recorded in a sieve is the number of its cells. *)
Definition wf (s : sieve_t) : Prop := Z.of_nat (List.length (cells s)) = len s.

(** The cell of [v], read without a bounds check. *)
Definition cell (s : sieve_t) (v : Z) : bool :=
  default false (cells s !! Z.to_nat v).

(** A list of cells, seen as a sieve of that extent. *)
Definition as_sieve (l : list bool) : sieve_t :=
  mk_sieve (Z.of_nat (List.length l)) l.

(** What the scan of the basic sieve over [[0, ub)] has established when it
    reaches index [i]: the cleared cells are 0, 1 and the proper multiples
    of the primes below [i]. *)
Definition sieve_inv (ub i : Z) (s : sieve_t) : Prop :=
  wf s /\ len s = ub /\
  forall v, 0 <= v < ub ->
    (cell s v = false <->
     v < 2 \/ exists p, Z.prime p /\ p < i /\ p < v /\ (p | v)).

(** The table built by the basic sieve: well-formed, and reading true
    exactly at the primes it covers. *)
Definition table_ok (small_primes : sieve_t) : Prop :=
  wf small_primes /\
  forall v, 0 <= v < len small_primes ->
    (cell small_primes v = true <-> Z.prime v).

(** [marked_by start small_primes q idx]: the table entry [q] reads prime
    and [start + idx] is a multiple of [q] above [q]. *)
Definition marked_by (start : Z) (small_primes : sieve_t) (q idx : Z) : Prop :=
  2 <= q < len small_primes /\ cell small_primes q = true /\
  q < start + idx /\ (q | start + idx).

(** What the loop over the table has established when it reaches [p]. *)
Definition segment_inv (start length : Z) (small_primes : sieve_t)
    (p : Z) (large : sieve_t) : Prop :=
  wf large /\ len large = length /\
  forall idx, 0 <= idx < length ->
    (cell large idx = false <->
     exists q, q < p /\ marked_by start small_primes q idx).

(** What [count_primes_in_interval_helper] asks of its caller. *)
Definition call_ok (max_sieve_length : Z) (call : Z * Z) : Prop :=
  2 <= fst call /\ 0 < snd call <= max_sieve_length.

(** Doing with each recorded call, in order, what the loop does with it. *)
Fixpoint visit_all {A : Type} (visit : sieve_t -> Z -> Z -> A -> res A)
    (small_primes : sieve_t) (calls : list (Z * Z)) (acc : A) : res A :=
  match calls with
  | [] => Ok acc
  | (start, length) :: calls' =>
      do acc' <- visit small_primes start length acc;
      visit_all visit small_primes calls' acc'
  end.

(** [tiles from calls to]: the segments of [calls] follow one another
    without gap or overlap, from [from] up to [to]. *)
Fixpoint tiles (from : Z) (calls : list (Z * Z)) (to : Z) : Prop :=
  match calls with
  | [] => from = to
  | (start, length) :: calls' => start = from /\ tiles (from + length) calls' to
  end.

(** Every segment of [calls] but the last has the length [full]. *)
Definition full_but_last (full : Z) (calls : list (Z * Z)) : Prop :=
  forall i call,
    calls !! i = Some call -> (S i < List.length calls)%nat -> snd call = full.

(** The value of [kp_index] before it is added to [start] and compared
    with [p]:
    [int64_t kp_index = start % p;
     if (0 != kp_index) kp_index = p - kp_index;] *)
Definition kp_offset (start p : Z) : Z :=
  let kp_index := rem64 start p in
  if negb (0 =? kp_index) then sub64 p kp_index else kp_index.

(* ===================================================================== *)
(** ** The embedding at work on small parameters *)
(* ===================================================================== *)

(** The program's table has three billion cells; the same code is run here
    with a table over [[0, 12)] and segments of at most 8 cells. *)

Example small_table :
  find_small_primes_upto 12
  = Ok (mk_sieve 12 [false; false; true; true; false; true;
                     false; true; false; false; false; true]).
Proof. reflexivity. Qed.

Example small_table_needs_two_cells :
  find_small_primes_upto 1 = Err OutOfBounds /\
  find_small_primes_upto 0 = Err BadExtent.
Proof. split; reflexivity. Qed.

Example first_index_examples :
  first_index 10 2 = 0 /\ first_index 10 3 = 2 /\ first_index 10 7 = 4 /\
  first_index 2 2 = 2 /\ first_index 4 5 = 6 /\ first_index 5 5 = 5 /\
  first_index 6 5 = 4.
Proof. repeat split; reflexivity. Qed.

Example small_segment :
  segment_sieve 10 10 (mk_sieve 4 [false; false; true; true])
  = Ok (mk_sieve 10 [false; true; false; true; false;
                     false; false; true; false; true]).
Proof. reflexivity. Qed.

Example small_counts :
  count_primes_in_interval_with 8 (find_small_primes_upto 12) 0 100 = Ok 25 /\
  count_primes_in_interval_with 8 (find_small_primes_upto 12) (-5) 7 = Ok 0 /\
  count_primes_in_interval_with 8 (find_small_primes_upto 12) 3 21 = Ok 8 /\
  prime_count 0 100 = 25 /\ naive_count 0 100 = 25 /\ naive_count 3 21 = 8.
Proof. repeat split; vm_compute; reflexivity. Qed.

Example small_calls :
  helper_calls_with 8 (find_small_primes_upto 12) (-3) 30
  = Ok [(2, 8); (10, 8); (18, 8); (26, 1)] /\
  helper_calls_with 8 (find_small_primes_upto 12) (-3) 29
  = Ok [(2, 8); (10, 8); (18, 8)].
Proof. split; reflexivity. Qed.

(** A table too short for the interval misses composites: with primes
    below 4 only, 25 = 5 * 5 survives in [[20, 30)]. *)
Example short_table_overcounts :
  count_primes_in_interval_with 8 (find_small_primes_upto 4) 20 10 = Ok 3 /\
  prime_count 20 10 = 2.
Proof. split; reflexivity. Qed.

(* ===================================================================== *)
(** ** Facts about 64-bit arithmetic *)
(* ===================================================================== *)

Lemma wrap64_id z : in_range z -> wrap64 z = z.
Proof.
  unfold in_range, min_signed, max_signed, wrap64. intros H.
  rewrite Z.mod_small by lia. lia.
Qed.

Lemma add64_id a b : in_range (a + b) -> add64 a b = a + b.
Proof. apply wrap64_id. Qed.

Lemma sub64_id a b : in_range (a - b) -> sub64 a b = a - b.
Proof. apply wrap64_id. Qed.

Lemma mul64_id a b : in_range (a * b) -> mul64 a b = a * b.
Proof. apply wrap64_id. Qed.

Lemma wrap64_high z :
  2 ^ 63 <= z < 2 ^ 64 -> wrap64 z = z - 2 ^ 64.
Proof.
  unfold wrap64. intros H.
  replace (z + 2 ^ 63) with ((z - 2 ^ 63) + 1 * 2 ^ 64) by lia.
  rewrite Z.mod_add by lia. rewrite Z.mod_small by lia. lia.
Qed.

(* ===================================================================== *)
(** ** Facts about primes *)
(* ===================================================================== *)

(** A prime has no prime divisor below itself. *)
Lemma prime_no_smaller_divisor p q :
  Z.prime p -> Z.prime q -> (q | p) -> q < p -> False.
Proof.
  intros Hp Hq Hd Hlt.
  pose proof (Z.prime_ge_2 q Hq).
  destruct (Z.divide_prime_r q p Hp Hd) as [?|[?|[?|?]]]; lia.
Qed.

(** Give the prime [p] as the witness of a goal [exists p, Z.prime p /\ ...]
    whose remaining conjuncts are arithmetic or already at hand. *)
Ltac prime_witness p :=
  exists p; split; [assumption | repeat split; first [assumption | lia | nia]].

(** Split [A /\ B /\ forall v, _ -> (C <-> D)] into its four parts, closing
    the first two when they are at hand. *)
Ltac split_cells v Hv :=
  split; [try assumption | split; [try assumption | intros v Hv; split]].

Lemma prime_decidable n : Z.prime n \/ ~ Z.prime n.
Proof. rewrite prime_alt. destruct (prime_dec n); auto. Qed.

Lemma not_prime_proper_divisor n :
  2 <= n -> ~ Z.prime n -> exists d, 1 < d < n /\ (d | n).
Proof.
  intros Hn Hnp. rewrite prime_alt in Hnp.
  apply not_prime_divide; [lia | assumption].
Qed.

(** Every number from 2 on that is not prime has a prime divisor whose
    square does not exceed it. *)
Lemma small_prime_divisor n :
  2 <= n -> ~ Z.prime n -> exists p, Z.prime p /\ (p | n) /\ p * p <= n.
Proof.
  intros Hn. pattern n. apply (Zlt_lower_bound_ind _ 2); [|assumption].
  clear n Hn. intros n IH Hn Hnp.
  destruct (not_prime_proper_divisor n Hn Hnp) as (d & Hd & [e He]).
  assert (He' : 1 < e < n) by nia.
  (* the smaller of the two cofactors *)
  assert (Hm : exists m, 1 < m < n /\ (m | n) /\ m * m <= n).
  { destruct (Z_le_gt_dec d e).
    - exists d. repeat split; try lia. + exists e; lia. + nia.
    - exists e. repeat split; try lia. + exists d; lia. + nia. }
  destruct Hm as (m & Hm & Hmn & Hmm).
  destruct (prime_decidable m) as [Hpm | Hnpm].
  - exists m. split; [assumption|]. split; assumption.
  - destruct (IH m ltac:(lia) Hnpm) as (p & Hp & Hpm & Hpp).
    exists p. split; [assumption|]. split.
    + eapply Z.divide_trans; eassumption.
    + lia.
Qed.

Lemma composite_has_smaller_prime n :
  2 <= n -> ~ Z.prime n -> exists p, Z.prime p /\ p < n /\ (p | n).
Proof.
  intros Hn Hnp. destruct (small_prime_divisor n Hn Hnp) as (p & Hp & Hd & Hpp).
  exists p. pose proof (Z.prime_ge_2 p Hp).
  split; [assumption|]. split; [nia | assumption].
Qed.

(** Trial division decides primality. *)
Lemma trialdiv_prime_p_spec n : trialdiv_prime_p n = true <-> Z.prime n.
Proof.
  unfold trialdiv_prime_p, Z.prime. rewrite andb_true_iff, forallb_forall, Z.leb_le.
  split.
  - intros [Hn Hall]. split; [lia|]. intros d Hd Hdiv.
    assert (Hin : In d (seqZ 2 (n - 2))).
    { apply list_elem_of_In, elem_of_seqZ. lia. }
    specialize (Hall d Hin). apply negb_true_iff, Z.eqb_neq in Hall.
    apply Hall. apply Z.mod_divide; [lia | assumption].
  - intros [Hn Hall]. split; [lia|].
    intros d Hin. apply list_elem_of_In, elem_of_seqZ in Hin.
    apply negb_true_iff, Z.eqb_neq. intros Hmod.
    apply Z.mod_divide in Hmod; [|lia].
    apply (Hall d); [lia | assumption].
Qed.

Lemma trialdiv_prime_p_false n : trialdiv_prime_p n = false <-> ~ Z.prime n.
Proof.
  rewrite <- trialdiv_prime_p_spec. destruct (trialdiv_prime_p n); split; congruence.
Qed.

(* ===================================================================== *)
(** ** Facts about the sieve structure *)
(* ===================================================================== *)

Lemma in_sieve_true s v : 0 <= v < len s -> in_sieve s v = true.
Proof. intros H. unfold in_sieve. apply andb_true_iff. split; [apply Z.leb_le | apply Z.ltb_lt]; lia. Qed.

Lemma prime_p_cell s v : wf s -> 0 <= v < len s -> prime_p s v = Ok (cell s v).
Proof.
  intros Hwf Hv. unfold prime_p, cell. rewrite in_sieve_true by assumption.
  destruct (lookup_lt_is_Some_2 (cells s) (Z.to_nat v)) as [b Hb].
  { unfold wf in Hwf. lia. }
  rewrite Hb. reflexivity.
Qed.

Lemma create_init_sieve extent :
  0 < extent ->
  exists s, create_sieve extent = Ok s /\ wf (init_sieve s) /\
            len (init_sieve s) = extent /\
            forall v, 0 <= v < extent -> cell (init_sieve s) v = true.
Proof.
  intros H. unfold create_sieve.
  destruct (Z.ltb_spec 0 extent); [|lia].
  eexists. split; [reflexivity|]. unfold init_sieve, wf, cell. simpl.
  rewrite !length_replicate. repeat split; [lia|].
  intros v Hv. rewrite lookup_replicate_2 by lia. reflexivity.
Qed.

Lemma mark_composite_spec s v :
  wf s -> 0 <= v < len s ->
  exists s', mark_composite s v = Ok s' /\ wf s' /\ len s' = len s /\
             forall u, 0 <= u -> (cell s' u = false <-> cell s u = false \/ u = v).
Proof.
  intros Hwf Hv. unfold mark_composite. rewrite in_sieve_true by assumption.
  eexists. split; [reflexivity|]. unfold wf, cell in *. simpl.
  rewrite length_insert. split_cells u Hu; [reflexivity|..].
  - destruct (Z.eq_dec u v) as [->|Hne]; [auto|].
    rewrite list_lookup_insert_ne by lia. auto.
  - intros [Hc | ->].
    + destruct (Z.eq_dec u v) as [->|Hne].
      * rewrite list_lookup_insert_eq by lia. reflexivity.
      * rewrite list_lookup_insert_ne by lia. assumption.
    + rewrite list_lookup_insert_eq by lia. reflexivity.
Qed.

(* ===================================================================== *)
(** ** The basic sieve: [find_small_primes] *)
(* ===================================================================== *)

Section basic_sieve_correct.

Variable ub : Z.
Hypothesis ub_lo : 2 <= ub.
Hypothesis ub_hi : ub <= 2 ^ 62.

(** The inner loop clears exactly the multiples [i * t], [t >= j], below
    the bound, and stays inside the sieve. *)
Lemma mark_multiples_spec i :
  2 <= i < ub ->
  forall fuel j s,
    2 <= j -> i * j < ub + i -> ub - i * j <= Z.of_nat fuel ->
    wf s -> len s = ub ->
    exists s', mark_multiples ub fuel i j s = Ok s' /\ wf s' /\ len s' = ub /\
      forall v, 0 <= v ->
        (cell s' v = false <->
         cell s v = false \/ exists t, j <= t /\ v = i * t /\ v < ub).
Proof.
  intros Hi. induction fuel as [|fuel IH]; intros j s Hj Hij Hfuel Hwf Hlen;
    simpl; rewrite mul64_id by (unfold in_range, min_signed, max_signed; nia);
    destruct (Z.ltb_spec (i * j) ub) as [Hlt|Hge]; try lia.
  - exists s. split; [reflexivity|]. split_cells v Hv; [auto|].
    intros [?|(t & Ht & -> & Hv')]; [assumption|nia].
  - destruct (mark_composite_spec s (i * j) Hwf ltac:(nia))
      as (s1 & -> & Hwf1 & Hlen1 & Hc1).
    simpl. rewrite add64_id by (unfold in_range, min_signed, max_signed; nia).
    destruct (IH (j + 1) s1 ltac:(lia) ltac:(nia) ltac:(nia) Hwf1 ltac:(lia))
      as (s' & -> & Hwf' & Hlen' & Hc').
    exists s'. split; [reflexivity|]. split_cells v Hv.
    + intros Hv'. apply Hc' in Hv'; [|assumption].
      destruct Hv' as [Hv'|(t & Ht & -> & Hlt')].
      * apply Hc1 in Hv'; [|assumption]. destruct Hv' as [?| ->]; [auto|].
        right. exists j. lia.
      * right. exists t. lia.
    + intros [Hv'|(t & Ht & -> & Hlt')]; apply Hc'; try assumption.
      * left. apply Hc1; auto.
      * destruct (Z.eq_dec t j) as [->|Hne].
        -- left. apply Hc1; auto.
        -- right. exists t. lia.
  - exists s. split; [reflexivity|]. split_cells v Hv; [auto|].
    intros [?|(t & Ht & -> & Hv')]; [assumption|nia].
Qed.

Lemma sieve_inv_prime i s :
  sieve_inv ub i s -> 2 <= i < ub -> (cell s i = true <-> Z.prime i).
Proof.
  intros (_ & _ & Hc) Hi. specialize (Hc i ltac:(lia)). split.
  - intros Ht. destruct (prime_decidable i) as [|Hnp]; [assumption|exfalso].
    destruct (composite_has_smaller_prime i ltac:(lia) Hnp) as (p & Hp & Hlt & Hd).
    assert (cell s i = false) by (apply Hc; right; prime_witness p).
    congruence.
  - intros Hp. destruct (cell s i) eqn:E; [reflexivity|exfalso].
    destruct Hc as [Hc _]. destruct (Hc eq_refl) as [?|(p & Hpp & Hlt & _ & Hd)]; [lia|].
    exact (prime_no_smaller_divisor i p Hp Hpp Hd Hlt).
Qed.

Lemma sieve_inv_step_prime i s s' :
  2 <= i < ub -> Z.prime i -> sieve_inv ub i s ->
  wf s' -> len s' = ub ->
  (forall v, 0 <= v ->
     (cell s' v = false <->
      cell s v = false \/ exists t, 2 <= t /\ v = i * t /\ v < ub)) ->
  sieve_inv ub (i + 1) s'.
Proof.
  intros Hi Hp (_ & _ & Hc) Hwf' Hlen' Hc'. split_cells v Hv.
  - intros Hf. apply Hc' in Hf; [|lia]. destruct Hf as [Hf|(t & Ht & -> & Hlt)].
    + apply Hc in Hf; [|assumption].
      destruct Hf as [?|(p & Hpp & ? & ? & ?)]; [auto|].
      right. prime_witness p.
    + right. exists i. split; [assumption|]. split; [lia|]. split; [nia|].
      exists t. lia.
  - intros Hf. apply Hc'; [lia|].
    destruct Hf as [?|(p & Hpp & Hlt & Hpv & Hd)]; [left; apply Hc; auto|].
    destruct (Z.eq_dec p i) as [->|Hne].
    + right. destruct Hd as [t ->]. exists t. nia.
    + left. apply Hc; [assumption|]. right. prime_witness p.
Qed.

Lemma sieve_inv_step_composite i s :
  2 <= i < ub -> ~ Z.prime i -> sieve_inv ub i s -> sieve_inv ub (i + 1) s.
Proof.
  intros Hi Hnp (Hwf & Hlen & Hc). split_cells v Hv.
  - intros Hf. apply Hc in Hf; [|assumption].
    destruct Hf as [?|(p & Hpp & ? & ? & ?)]; [auto|].
    right. prime_witness p.
  - intros Hf. apply Hc; [assumption|].
    destruct Hf as [?|(p & Hpp & Hlt & Hpv & Hd)]; [auto|].
    destruct (Z.eq_dec p i) as [->|Hne]; [contradiction|].
    right. prime_witness p.
Qed.

Lemma scan_sieve_spec :
  forall fuel i s,
    2 <= i <= ub -> ub - i <= Z.of_nat fuel -> sieve_inv ub i s ->
    exists s', scan_sieve ub fuel i s = Ok s' /\ sieve_inv ub ub s'.
Proof.
  induction fuel as [|fuel IH]; intros i s Hi Hfuel Hinv; simpl;
    destruct (Z.ltb_spec i ub) as [Hlt|Hge]; try lia.
  - exists s. assert (E : i = ub) by lia. rewrite E in Hinv. auto.
  - pose proof Hinv as (Hwf & Hlen & _).
    rewrite prime_p_cell by (auto; lia). simpl.
    rewrite add64_id by (unfold in_range, min_signed, max_signed; lia).
    pose proof (sieve_inv_prime i s Hinv ltac:(lia)) as Hpi.
    destruct (cell s i).
    + assert (Hp : Z.prime i) by (apply Hpi; reflexivity).
      destruct (mark_multiples_spec i ltac:(lia) (Z.to_nat ub) 2 s
                  ltac:(lia) ltac:(lia) ltac:(lia) Hwf Hlen)
        as (s1 & -> & Hwf1 & Hlen1 & Hc1).
      simpl. apply IH; [lia|lia|].
      eapply sieve_inv_step_prime; eauto. lia.
    + simpl. apply IH; [lia|lia|].
      apply sieve_inv_step_composite; auto; [lia|].
      intros Hp. apply Hpi in Hp. discriminate.
  - exists s. assert (E : i = ub) by lia. rewrite E in Hinv. auto.
Qed.

(** Before the scan: only 0 and 1 are cleared. *)
Lemma sieve_inv_init s :
  wf s -> len s = ub ->
  (forall v, 0 <= v < ub -> (cell s v = false <-> v < 2)) ->
  sieve_inv ub 2 s.
Proof.
  intros Hwf Hlen Hc. split_cells v Hv.
  - intros Hf. left. apply Hc; assumption.
  - intros [Hf|(p & Hp & Hlt & _)]; [apply Hc; assumption|].
    pose proof (Z.prime_ge_2 p Hp). lia.
Qed.

(** After the scan: the cells that read true are the primes. *)
Lemma sieve_inv_done s :
  sieve_inv ub ub s ->
  forall v, 0 <= v < ub -> (cell s v = true <-> Z.prime v).
Proof.
  intros (Hwf & Hlen & Hc) v Hv. split.
  - intros Ht. destruct (prime_decidable v) as [|Hnp]; [assumption|exfalso].
    assert (cell s v = false); [|congruence].
    apply Hc; [assumption|].
    destruct (Z_lt_le_dec v 2); [auto|right].
    destruct (composite_has_smaller_prime v ltac:(lia) Hnp) as (p & Hp & Hlt & Hd).
    prime_witness p.
  - intros Hp. destruct (cell s v) eqn:E; [reflexivity|exfalso].
    apply Hc in E; [|assumption].
    pose proof (Z.prime_ge_2 v Hp).
    destruct E as [?|(p & Hpp & _ & Hlt & Hd)]; [lia|].
    exact (prime_no_smaller_divisor v p Hp Hpp Hd Hlt).
Qed.

(** The basic sieve runs to completion inside its bounds and leaves a
    table that reads true exactly at the primes below the bound. *)
Lemma find_small_primes_upto_spec :
  exists s, find_small_primes_upto ub = Ok s /\ wf s /\ len s = ub /\
            forall v, 0 <= v < ub -> (cell s v = true <-> Z.prime v).
Proof.
  unfold find_small_primes_upto.
  destruct (create_init_sieve ub ltac:(lia)) as (s0 & -> & Hwf0 & Hlen0 & Hc0).
  simpl.
  destruct (mark_composite_spec (init_sieve s0) 0 Hwf0 ltac:(lia))
    as (s1 & -> & Hwf1 & Hlen1 & Hc1).
  simpl.
  destruct (mark_composite_spec s1 1 Hwf1 ltac:(lia))
    as (s2 & -> & Hwf2 & Hlen2 & Hc2).
  simpl.
  assert (Hinv : sieve_inv ub 2 s2).
  { apply sieve_inv_init; [assumption|lia|]. intros v Hv. split.
    - intros Hf. apply Hc2 in Hf; [|lia]. destruct Hf as [Hf|?]; [|lia].
      apply Hc1 in Hf; [|lia]. destruct Hf as [Hf|?]; [|lia].
      rewrite Hc0 in Hf by lia. discriminate.
    - intros Hf. apply Hc2; [lia|]. destruct (Z.eq_dec v 1); [auto|].
      left. apply Hc1; [lia|]. right. lia. }
  destruct (scan_sieve_spec (Z.to_nat ub) 2 s2 ltac:(lia) ltac:(lia) Hinv)
    as (s & -> & Hinv').
  pose proof Hinv' as (Hwf & Hlen & _).
  exists s. split; [reflexivity|]. split; [assumption|]. split; [assumption|].
  apply sieve_inv_done. assumption.
Qed.

End basic_sieve_correct.

(* ===================================================================== *)
(** ** One segment: [count_primes_in_interval_helper] *)
(* ===================================================================== *)

Lemma in_range_intro z : - 2 ^ 63 <= z <= 2 ^ 63 - 1 -> in_range z.
Proof. unfold in_range, min_signed, max_signed. auto. Qed.

(** The starting index computed for [p]: the least [k >= 0] for which
    [start + k] is a multiple of [p] above [p].  The sum [start + kp_index]
    may exceed the 64-bit range when [start] is close to its maximum; the
    wrapped sum is then negative, the comparison with [p] fails, and the
    index is left as it is, which is what the mathematical sum asks for. *)
Lemma first_index_spec start p :
  2 <= start <= max_signed -> 2 <= p <= 2 ^ 62 ->
  0 <= first_index start p < 2 * p /\
  (p | start + first_index start p) /\
  p < start + first_index start p /\
  forall k', 0 <= k' -> (p | start + k') -> p < start + k' ->
             first_index start p <= k'.
Proof.
  unfold max_signed. intros Hs Hp. unfold first_index, rem64.
  rewrite Z.rem_mod_nonneg by lia.
  pose proof (Z.mod_pos_bound start p ltac:(lia)) as Hr.
  pose proof (Z.div_mod start p ltac:(lia)) as Hdm.
  assert (Hq : 0 <= start / p) by (apply Z.div_pos; lia).
  set (r := start mod p) in *. set (q := start / p) in *.
  rewrite (wrap64_id r) by (apply in_range_intro; lia).
  (* the offset of the first multiple of p from start on *)
  set (k0 := if negb (0 =? r) then sub64 p r else r).
  assert (Hk0 : 0 <= k0 < p /\ exists m, start + k0 = p * m /\ 1 <= m /\
                (forall m', start <= p * m' -> m <= m')).
  { subst k0. destruct (Z.eqb_spec 0 r) as [E|E]; simpl.
    - split; [lia|]. exists q. split; [lia|]. split; [nia|]. intros m' Hm'. nia.
    - rewrite sub64_id by (apply in_range_intro; lia).
      split; [lia|]. exists (q + 1). split; [lia|]. split; [lia|].
      intros m' Hm'. nia. }
  destruct Hk0 as (Hk0 & m & Hm & Hm1 & Hmin).
  assert (Hcmp : (add64 start k0 =? p) = (start + k0 =? p)).
  { destruct (Z_le_gt_dec (start + k0) (2 ^ 63 - 1)).
    - rewrite add64_id by (apply in_range_intro; lia). reflexivity.
    - unfold add64. rewrite wrap64_high by lia.
      destruct (Z.eqb_spec (start + k0 - 2 ^ 64) p);
        destruct (Z.eqb_spec (start + k0) p); lia || reflexivity. }
  rewrite Hcmp. destruct (Z.eqb_spec (start + k0) p) as [E|E].
  - rewrite add64_id by (apply in_range_intro; lia).
    split; [lia|]. split; [exists 2; lia|]. split; [lia|].
    intros k' Hk' [m' Hd] Hlt.
    assert (2 <= m') by nia. nia.
  - assert (2 <= m) by nia.
    split; [lia|]. split; [exists m; lia|]. split; [nia|].
    intros k' Hk' [m' Hd] Hlt.
    specialize (Hmin m' ltac:(lia)). nia.
Qed.

Section segment_correct.

Variables start length : Z.
Variable small_primes : sieve_t.
Hypothesis start_range : 2 <= start <= max_signed.
Hypothesis length_pos : 0 < length.
Hypothesis small_wf : wf small_primes.
Hypothesis small_len : len small_primes <= 2 ^ 62.
Hypothesis length_small : length + len small_primes <= max_signed.

(** The marking loop clears the indices [k, k + p, k + 2p, ...] below
    [length], and stays inside the segment sieve. *)
Lemma mark_from_spec p :
  0 < p < len small_primes ->
  forall fuel k s,
    0 <= k -> length - k <= Z.of_nat fuel -> wf s -> len s = length ->
    exists s', mark_from length fuel p k s = Ok s' /\ wf s' /\ len s' = length /\
      forall v, 0 <= v ->
        (cell s' v = false <->
         cell s v = false \/ exists t, 0 <= t /\ v = k + t * p /\ v < length).
Proof.
  unfold max_signed in *.
  intros Hp. induction fuel as [|fuel IH]; intros k s Hk Hfuel Hwf Hlen; simpl;
    destruct (Z.ltb_spec k length) as [Hlt|Hge]; try lia.
  - exists s. split; [reflexivity|]. split_cells v Hv; [auto|].
    intros [?|(t & Ht & -> & Hv')]; [assumption|nia].
  - destruct (mark_composite_spec s k Hwf ltac:(lia))
      as (s1 & -> & Hwf1 & Hlen1 & Hc1).
    simpl. rewrite add64_id by (apply in_range_intro; lia).
    destruct (IH (k + p) s1 ltac:(lia) ltac:(lia) Hwf1 ltac:(lia))
      as (s' & -> & Hwf' & Hlen' & Hc').
    exists s'. split; [reflexivity|]. split_cells v Hv.
    + intros Hf. apply Hc' in Hf; [|assumption].
      destruct Hf as [Hf|(t & Ht & -> & Hlt')].
      * apply Hc1 in Hf; [|assumption]. destruct Hf as [?| ->]; [auto|].
        right. exists 0. lia.
      * right. exists (t + 1). lia.
    + intros [Hf|(t & Ht & -> & Hlt')]; apply Hc'; try assumption.
      * left. apply Hc1; auto.
      * destruct (Z.eq_dec t 0) as [->|Hne].
        -- left. apply Hc1; [assumption|]. right. lia.
        -- right. exists (t - 1). lia.
  - exists s. split; [reflexivity|]. split_cells v Hv; [auto|].
    intros [?|(t & Ht & -> & Hv')]; [assumption|nia].
Qed.

Lemma segment_inv_step_marked p large large' :
  2 <= p < len small_primes -> cell small_primes p = true ->
  segment_inv start length small_primes p large -> wf large' -> len large' = length ->
  (forall v, 0 <= v ->
     (cell large' v = false <->
      cell large v = false \/
      exists t, 0 <= t /\ v = first_index start p + t * p /\ v < length)) ->
  segment_inv start length small_primes (p + 1) large'.
Proof.
  intros Hp Hcp (_ & _ & Hc) Hwf' Hlen' Hc'.
  destruct (first_index_spec start p start_range ltac:(lia))
    as (Hk & Hkd & Hkp & Hkmin).
  split_cells idx Hidx.
  - intros Hf. apply Hc' in Hf; [|lia].
    destruct Hf as [Hf|(t & Ht & Hv & Hlt)].
    + apply Hc in Hf; [|assumption]. destruct Hf as (q & Hq & Hm).
      exists q. split; [lia|assumption].
    + exists p. split; [lia|]. split; [lia|]. split; [assumption|].
      split; [nia|]. rewrite Hv.
      replace (start + (first_index start p + t * p))
        with (start + first_index start p + t * p) by lia.
      apply Z.divide_add_r; [assumption|]. exists t. reflexivity.
  - intros (q & Hq & Hm). apply Hc'; [lia|].
    destruct (Z.eq_dec q p) as [->|Hne].
    + right. destruct Hm as (_ & _ & Hlt & Hd).
      specialize (Hkmin idx ltac:(lia) Hd Hlt).
      destruct Hkd as [a Ha]. destruct Hd as [b Hb].
      exists (b - a). nia.
    + left. apply Hc; [assumption|]. exists q. split; [lia|assumption].
Qed.

Lemma segment_inv_step_skipped p large :
  cell small_primes p = false -> segment_inv start length small_primes p large -> segment_inv start length small_primes (p + 1) large.
Proof.
  intros Hcp (Hwf & Hlen & Hc). split_cells idx Hidx.
  - intros Hf. apply Hc in Hf; [|assumption]. destruct Hf as (q & Hq & Hm).
    exists q. split; [lia|assumption].
  - intros (q & Hq & Hm). apply Hc; [assumption|]. exists q. split; [|assumption].
    destruct (Z.eq_dec q p) as [->|Hne]; [|lia].
    destruct Hm as (_ & Hcq & _). congruence.
Qed.

Lemma sieve_segment_spec :
  forall fuel p large,
    2 <= p -> len small_primes - p <= Z.of_nat fuel -> segment_inv start length small_primes p large ->
    exists large',
      sieve_segment start length small_primes fuel p large = Ok large' /\
      segment_inv start length small_primes (len small_primes) large'.
Proof.
  assert (Hexit : forall p large, len small_primes <= p ->
            segment_inv start length small_primes p large -> segment_inv start length small_primes (len small_primes) large).
  { intros p large Hge (Hwf & Hlen & Hc). split_cells idx Hidx.
    - intros Hf. apply Hc in Hf; [|assumption]. destruct Hf as (q & Hq & Hm).
      exists q. split; [|assumption]. destruct Hm as (? & _). lia.
    - intros (q & Hq & Hm). apply Hc; [assumption|]. exists q.
      split; [lia|assumption]. }
  unfold max_signed in *.
  induction fuel as [|fuel IH]; intros p large Hp Hfuel Hinv; simpl;
    destruct (Z.ltb_spec p (len small_primes)) as [Hlt|Hge]; try lia.
  - exists large. eauto.
  - pose proof Hinv as (Hwf & Hlen & _).
    rewrite prime_p_cell by (auto; lia). simpl.
    rewrite add64_id by (apply in_range_intro; lia).
    destruct (cell small_primes p) eqn:Hcp.
    + destruct (first_index_spec start p start_range ltac:(lia)) as (Hk & _).
      destruct (mark_from_spec p ltac:(lia) (Z.to_nat length)
                  (first_index start p) large ltac:(lia) ltac:(lia) Hwf Hlen)
        as (s1 & -> & Hwf1 & Hlen1 & Hc1).
      simpl. apply IH; [lia|lia|].
      eapply segment_inv_step_marked; eauto.
    + simpl. apply IH; [lia|lia|].
      apply segment_inv_step_skipped; assumption.
  - exists large. eauto.
Qed.

(** The segment sieve is built without leaving its bounds; a cell is
    cleared exactly when some table entry marks it. *)
Lemma segment_sieve_spec :
  exists large,
    segment_sieve start length small_primes = Ok large /\
    wf large /\ len large = length /\
    forall idx, 0 <= idx < length ->
      (cell large idx = false <-> exists q, marked_by start small_primes q idx).
Proof.
  unfold segment_sieve.
  destruct (create_init_sieve length length_pos) as (s0 & -> & Hwf0 & Hlen0 & Hc0).
  simpl.
  assert (Hinv : segment_inv start length small_primes 2 (init_sieve s0)).
  { split_cells idx Hidx.
    - intros Hf. rewrite Hc0 in Hf by assumption. discriminate.
    - intros (q & Hq & (? & _)). lia. }
  destruct (sieve_segment_spec (Z.to_nat (len small_primes)) 2 (init_sieve s0)
              ltac:(lia) ltac:(lia) Hinv) as (large & -> & Hwf & Hlen & Hc).
  exists large. split; [reflexivity|]. split_cells idx Hidx.
  - intros Hf. apply Hc in Hf; [|assumption]. destruct Hf as (q & _ & Hm). eauto.
  - intros (q & Hm). apply Hc; [assumption|]. exists q. split; [|assumption].
    destruct Hm as (? & _). lia.
Qed.

End segment_correct.

(** *** Counting the surviving cells *)

Lemma count_true_cons b l :
  count_true (b :: l) = (if b then 1 else 0) + count_true l.
Proof. unfold count_true. destruct b; simpl; lia. Qed.

Lemma count_true_bounds l : 0 <= count_true l <= Z.of_nat (List.length l).
Proof.
  induction l as [|b l IH]; [unfold count_true; simpl; lia|].
  rewrite count_true_cons. destruct b; simpl List.length; lia.
Qed.

Lemma count_true_fmap {A} (f : A -> bool) (l : list A) :
  count_true (f <$> l) = Z.of_nat (List.length (List.filter f l)).
Proof.
  induction l as [|a l IH]; [reflexivity|].
  rewrite fmap_cons, count_true_cons, IH. simpl. destruct (f a); simpl; lia.
Qed.

Lemma lookup_cell s v :
  wf s -> 0 <= v < len s -> cells s !! Z.to_nat v = Some (cell s v).
Proof.
  intros Hwf Hv. unfold cell.
  destruct (lookup_lt_is_Some_2 (cells s) (Z.to_nat v)) as [b Hb].
  { unfold wf in Hwf. lia. }
  rewrite Hb. reflexivity.
Qed.

(** The counting loop adds the number of cells that read true from index
    [i] on to the running count, and stays inside the sieve. *)
Lemma count_unmarked_spec n s :
  wf s -> len s = n -> n <= max_signed ->
  forall fuel i num,
    0 <= i <= n -> n - i <= Z.of_nat fuel ->
    0 <= num -> num + (n - i) <= max_signed ->
    count_unmarked n fuel i num s
    = Ok (num + count_true (drop (Z.to_nat i) (cells s))).
Proof.
  unfold max_signed. intros Hwf Hlen Hn.
  induction fuel as [|fuel IH]; intros i num Hi Hfuel Hnum Hmax; simpl;
    destruct (Z.ltb_spec i n) as [Hlt|Hge]; try lia.
  - rewrite drop_ge by (unfold wf in Hwf; lia). unfold count_true. simpl.
    f_equal. lia.
  - rewrite prime_p_cell by (auto; lia). simpl.
    rewrite (drop_S _ (cell s i)) by (apply lookup_cell; auto; lia).
    rewrite count_true_cons.
    rewrite (add64_id i 1) by (apply in_range_intro; lia).
    replace (S (Z.to_nat i)) with (Z.to_nat (i + 1)) by lia.
    destruct (cell s i).
    + rewrite add64_id by (apply in_range_intro; lia).
      rewrite IH by lia. f_equal. lia.
    + rewrite IH by lia. f_equal.
  - rewrite drop_ge by (unfold wf in Hwf; lia). unfold count_true. simpl.
    f_equal. lia.
Qed.

(** A sieve whose cells read true exactly at the primes of the range it
    stands for holds the trial-division verdicts of that range. *)
Lemma cells_trialdiv s start :
  wf s ->
  (forall idx, 0 <= idx < len s -> (cell s idx = true <-> Z.prime (start + idx))) ->
  cells s = trialdiv_prime_p <$> seqZ start (len s).
Proof.
  intros Hwf Hc. apply list_eq. intros i. rewrite list_lookup_fmap.
  destruct (Z_lt_le_dec (Z.of_nat i) (len s)) as [Hlt|Hge].
  - rewrite lookup_seqZ_lt by assumption. simpl.
    replace i with (Z.to_nat (Z.of_nat i)) at 1 by lia.
    rewrite lookup_cell by (auto; lia). f_equal.
    specialize (Hc (Z.of_nat i) ltac:(lia)).
    destruct (trialdiv_prime_p (start + Z.of_nat i)) eqn:E.
    + apply Hc, trialdiv_prime_p_spec, E.
    + destruct (cell s (Z.of_nat i)); [|reflexivity].
      apply trialdiv_prime_p_false in E. exfalso. apply E, Hc. reflexivity.
  - rewrite lookup_seqZ_ge by assumption. simpl.
    apply lookup_ge_None_2. unfold wf in Hwf. lia.
Qed.

Section helper_correct.

Variables start length : Z.
Variable small_primes : sieve_t.
Hypothesis start_range : 2 <= start <= max_signed.
Hypothesis length_pos : 0 < length.
Hypothesis small_wf : wf small_primes.
Hypothesis small_len : len small_primes <= 2 ^ 62.
Hypothesis length_small : length + len small_primes <= max_signed.

(** The helper returns the number of cells its segment sieve leaves set. *)
Lemma helper_counts_cells :
  exists large,
    segment_sieve start length small_primes = Ok large /\
    wf large /\ len large = length /\
    count_primes_in_interval_helper start length small_primes
    = Ok (count_true (cells large)).
Proof.
  destruct (segment_sieve_spec start length small_primes start_range length_pos
              small_wf small_len length_small)
    as (large & Hseg & Hwf & Hlen & _).
  exists large. split; [assumption|]. split; [assumption|]. split; [assumption|].
  unfold count_primes_in_interval_helper. rewrite Hseg. simpl.
  pose proof (Z.pow_pos_nonneg 2 62 ltac:(lia) ltac:(lia)).
  rewrite (count_unmarked_spec length large Hwf Hlen)
    by (unfold wf, max_signed in *; lia).
  reflexivity.
Qed.

(** The helper always returns, with a count between 0 and [length]. *)
Lemma helper_total :
  exists n, count_primes_in_interval_helper start length small_primes = Ok n /\
            0 <= n <= length.
Proof.
  destruct helper_counts_cells as (large & _ & Hwf & Hlen & ->).
  eexists. split; [reflexivity|].
  pose proof (count_true_bounds (cells large)). unfold wf in Hwf. lia.
Qed.

Hypothesis small_ok : table_ok small_primes.
Hypothesis covered : start + length <= len small_primes * len small_primes.

(** With a correct table whose square covers the segment, the surviving
    cells are exactly the primes of the segment. *)
Lemma segment_sieve_prime :
  exists large,
    segment_sieve start length small_primes = Ok large /\
    wf large /\ len large = length /\
    forall idx, 0 <= idx < length ->
      (cell large idx = true <-> Z.prime (start + idx)).
Proof.
  destruct (segment_sieve_spec start length small_primes start_range length_pos
              small_wf small_len length_small)
    as (large & Hseg & Hwf & Hlen & Hc).
  destruct small_ok as (_ & Htab).
  exists large. split; [assumption|]. split_cells idx Hidx.
  - intros Ht.
    destruct (prime_decidable (start + idx)) as [|Hnp]; [assumption|exfalso].
    assert (cell large idx = false); [|congruence].
    apply Hc; [assumption|].
    destruct (small_prime_divisor (start + idx) ltac:(lia) Hnp)
      as (q & Hq & Hd & Hqq).
    pose proof (Z.prime_ge_2 q Hq).
    assert (Hqlen : q < len small_primes).
    { assert (0 <= len small_primes) by (unfold wf in small_wf; lia).
      destruct (Z_lt_le_dec q (len small_primes)); [assumption|nia]. }
    exists q. split; [lia|]. split; [apply Htab; [lia|assumption]|].
    split; [nia|assumption].
  - intros Hp. destruct (cell large idx) eqn:E; [reflexivity|exfalso].
    apply Hc in E; [|assumption].
    destruct E as (q & Hq & Hcq & Hlt & Hd).
    apply Htab in Hcq; [|lia].
    exact (prime_no_smaller_divisor (start + idx) q Hp Hcq Hd Hlt).
Qed.

Lemma segment_cells_prime large :
  segment_sieve start length small_primes = Ok large ->
  cells large = trialdiv_prime_p <$> seqZ start length.
Proof.
  intros Hseg. destruct segment_sieve_prime as (large' & Hseg' & Hwf & Hlen & Hc).
  rewrite Hseg in Hseg'. injection Hseg' as <-.
  rewrite <- Hlen. apply cells_trialdiv; [assumption|]. rewrite Hlen. assumption.
Qed.

(** The helper returns the number of primes in [[start, start + length)]. *)
Lemma helper_correct :
  count_primes_in_interval_helper start length small_primes
  = Ok (prime_count start length).
Proof.
  destruct helper_counts_cells as (large & Hseg & _ & _ & ->).
  rewrite (segment_cells_prime large Hseg), count_true_fmap. reflexivity.
Qed.

End helper_correct.

(* ===================================================================== *)
(** ** The number of primes in a range *)
(* ===================================================================== *)

Lemma prime_count_nonpos start length : length <= 0 -> prime_count start length = 0.
Proof. intros H. unfold prime_count. rewrite seqZ_nil by assumption. reflexivity. Qed.

Lemma prime_count_bounds start length :
  0 <= prime_count start length <= Z.max 0 length.
Proof.
  unfold prime_count.
  pose proof (List.filter_length_le trialdiv_prime_p (seqZ start length)) as H.
  rewrite length_seqZ in H. lia.
Qed.

Lemma prime_count_split start a b :
  0 <= a -> 0 <= b ->
  prime_count start (a + b) = prime_count start a + prime_count (start + a) b.
Proof.
  intros Ha Hb. unfold prime_count.
  rewrite seqZ_app by assumption.
  rewrite List.filter_app, length_app. lia.
Qed.

Lemma trialdiv_prime_p_below_2 n : n < 2 -> trialdiv_prime_p n = false.
Proof.
  intros H. apply trialdiv_prime_p_false. intros Hp.
  apply Z.prime_ge_2 in Hp. lia.
Qed.

Lemma prime_count_below_2 start length :
  start + length <= 2 -> prime_count start length = 0.
Proof.
  intros H. unfold prime_count.
  rewrite (List.filter_ext_in trialdiv_prime_p (fun _ => false));
    [rewrite List.filter_false; reflexivity|].
  intros n Hin. apply list_elem_of_In, elem_of_seqZ in Hin.
  apply trialdiv_prime_p_below_2. lia.
Qed.

(** Numbers below 2 do not count: the range may start at 2. *)
Lemma prime_count_clamp start length :
  start < 2 -> 2 < start + length ->
  prime_count start length = prime_count 2 (length - (2 - start)).
Proof.
  intros Hs Hl.
  replace length with ((2 - start) + (length - (2 - start))) at 1 by lia.
  rewrite prime_count_split by lia.
  rewrite (prime_count_below_2 start (2 - start)) by lia.
  replace (start + (2 - start)) with 2 by lia. lia.
Qed.

(* ===================================================================== *)
(** ** The segmentation loop: [count_primes_in_interval] *)
(* ===================================================================== *)

Section traversal_facts.

Variable max_sieve_length : Z.
Hypothesis max_pos : 0 < max_sieve_length.
Variable small_primes_table : res sieve_t.

(** How a call of [count_primes_in_interval] begins: either it returns 0
    at once, or it enters the loop with the interval clamped to start at
    2, which is then non-empty and ends where the given one ends. *)
Lemma traverse_interval_cases {A} (visit : sieve_t -> Z -> Z -> A -> res A) zero
    start length :
  in_range start -> in_range length ->
  (traverse_interval max_sieve_length small_primes_table visit zero start length
     = Ok zero /\
   (length <= 0 \/ start + length <= 2 \/ max_signed < start + length)) \/
  (0 < length /\ 2 < start + length <= max_signed /\
   traverse_interval max_sieve_length small_primes_table visit zero start length
     = (do small_primes <- small_primes_table;
        segment_loop max_sieve_length visit
          (Z.to_nat (start + length - Z.max 2 start)) small_primes
          (Z.max 2 start) (start + length - Z.max 2 start) zero)).
Proof.
  unfold in_range, min_signed, max_signed, traverse_interval.
  intros Hs Hl.
  destruct (Z.leb_spec length 0) as [H0|H0]; [left; auto|].
  destruct (Z_le_gt_dec (start + length) (2 ^ 63 - 1)) as [Hsum|Hsum].
  - rewrite add64_id by (apply in_range_intro; lia).
    destruct (Z.leb_spec (start + length) 2) as [H2|H2]; [left; auto|].
    right. split; [assumption|]. split; [lia|].
    destruct (Z.ltb_spec start 2) as [Hlt|Hge].
    + rewrite (sub64_id 2 start) by (apply in_range_intro; lia).
      rewrite sub64_id by (apply in_range_intro; lia).
      rewrite Z.max_l by lia.
      replace (length - (2 - start)) with (start + length - 2) by lia.
      reflexivity.
    + rewrite Z.max_r by lia.
      replace (start + length - start) with length by lia.
      reflexivity.
  - unfold add64. rewrite wrap64_high by lia.
    destruct (Z.leb_spec (start + length - 2 ^ 64) 2) as [H2|H2]; [|lia].
    left. split; [reflexivity|]. right. right. lia.
Qed.

(** The calls the loop makes: each within the helper's precondition, and
    the loop does with them what [visit_all] does. *)
Lemma segment_loop_calls small_primes :
  forall fuel start length,
    2 <= start -> 0 < length -> start + length <= max_signed ->
    length <= Z.of_nat fuel ->
    exists calls,
      Forall (call_ok max_sieve_length) calls /\
      (forall calls0,
         segment_loop max_sieve_length record_call fuel small_primes
                      start length calls0 = Ok (calls0 ++ calls)) /\
      (forall A (visit : sieve_t -> Z -> Z -> A -> res A) acc,
         segment_loop max_sieve_length visit fuel small_primes start length acc
         = visit_all visit small_primes calls acc).
Proof.
  unfold max_signed.
  induction fuel as [|fuel IH]; intros start length Hs Hl Hsum Hfuel; [lia|].
  simpl. destruct (Z.ltb_spec max_sieve_length length) as [Hlt|Hge].
  - rewrite add64_id by (apply in_range_intro; lia).
    rewrite sub64_id by (apply in_range_intro; lia).
    destruct (IH (start + max_sieve_length) (length - max_sieve_length)
                ltac:(lia) ltac:(lia) ltac:(lia) ltac:(lia))
      as (calls & Hok & Hrec & Hvis).
    exists ((start, max_sieve_length) :: calls). split; [|split].
    + constructor; [|assumption]. unfold call_ok. simpl. lia.
    + intros calls0. unfold record_call at 1. simpl. rewrite Hrec.
      rewrite <- app_assoc. reflexivity.
    + intros A visit acc. simpl.
      destruct (visit small_primes start max_sieve_length acc); simpl;
        [apply Hvis | reflexivity].
  - exists [(start, length)]. split; [|split].
    + constructor; [|constructor]. unfold call_ok. simpl. lia.
    + intros calls0. reflexivity.
    + intros A visit acc. simpl.
      destruct (visit small_primes start length acc); reflexivity.
Qed.

(** With a correct table the loop adds up the primes of the interval. *)
Lemma segment_loop_count small_primes :
  table_ok small_primes -> len small_primes <= 2 ^ 62 ->
  max_sieve_length + len small_primes <= max_signed ->
  forall fuel start length num,
    2 <= start -> 0 < length -> start + length <= max_signed ->
    start + length <= len small_primes * len small_primes ->
    length <= Z.of_nat fuel ->
    0 <= num -> num + length <= max_signed ->
    segment_loop max_sieve_length add_segment_count fuel small_primes
                 start length num
    = Ok (num + prime_count start length).
Proof.
  unfold max_signed. intros Hok Hlen Hmax. pose proof Hok as (Hwf & _).
  induction fuel as [|fuel IH];
    intros start length num Hs Hl Hsum Hcov Hfuel Hnum Hacc; [lia|].
  simpl. destruct (Z.ltb_spec max_sieve_length length) as [Hlt|Hge].
  - unfold add_segment_count at 1.
    rewrite helper_correct by (unfold max_signed; auto; lia). simpl.
    pose proof (prime_count_bounds start max_sieve_length).
    rewrite add64_id by (apply in_range_intro; lia).
    rewrite add64_id by (apply in_range_intro; lia).
    rewrite sub64_id by (apply in_range_intro; lia).
    rewrite IH by lia. f_equal.
    replace length with (max_sieve_length + (length - max_sieve_length)) at 2
      by lia.
    rewrite prime_count_split by lia. lia.
  - unfold add_segment_count.
    rewrite helper_correct by (unfold max_signed; auto; lia). simpl.
    pose proof (prime_count_bounds start length).
    rewrite add64_id by (apply in_range_intro; lia). reflexivity.
Qed.

(** [count_primes_in_interval], for any segment size and any correct
    table whose square covers the interval. *)
Lemma count_primes_in_interval_with_correct small_primes start length :
  small_primes_table = Ok small_primes ->
  table_ok small_primes -> len small_primes <= 2 ^ 62 ->
  max_sieve_length + len small_primes <= max_signed ->
  in_range start -> in_range length -> in_range (start + length) ->
  start + length <= len small_primes * len small_primes ->
  count_primes_in_interval_with max_sieve_length small_primes_table start length
  = Ok (prime_count start length).
Proof.
  intros Htab Hok Hlen Hmax Hs Hl Hsum Hcov.
  unfold count_primes_in_interval_with.
  destruct (traverse_interval_cases add_segment_count 0 start length Hs Hl)
    as [[-> Hz]|(Hl0 & Hsum' & ->)].
  - f_equal. symmetry. destruct Hz as [Hz|[Hz|Hz]].
    + apply prime_count_nonpos; assumption.
    + apply prime_count_below_2; assumption.
    + unfold in_range in Hsum. lia.
  - rewrite Htab. simpl.
    rewrite segment_loop_count by (auto; unfold in_range, max_signed in *; lia).
    rewrite Z.add_0_l. f_equal. destruct (Z_lt_le_dec start 2).
    + rewrite Z.max_l by lia. rewrite (prime_count_clamp start length) by lia.
      f_equal. lia.
    + rewrite Z.max_r by lia. f_equal. lia.
Qed.

End traversal_facts.

(* ===================================================================== *)
(** ** The constants of the program *)
(* ===================================================================== *)

Lemma MAX_SIEVE_LENGTH_eq : MAX_SIEVE_LENGTH = 2 ^ 30.
Proof. reflexivity. Qed.

(** The double nearest to 1.42 times [2^31] is 3049426780.1599..., which
    the cast truncates. *)
Lemma upper_bound_eq : upper_bound = 3049426780.
Proof. vm_compute. reflexivity. Qed.

Lemma ceil_extent_eq : ceil_extent = 3049426781.
Proof. reflexivity. Qed.

(** [find_small_primes] returns a correct table of extent [upper_bound]. *)
Lemma find_small_primes_spec :
  exists small_primes,
    find_small_primes = Ok small_primes /\ table_ok small_primes /\
    len small_primes = upper_bound.
Proof.
  unfold find_small_primes.
  destruct (find_small_primes_upto_spec upper_bound
              ltac:(rewrite upper_bound_eq; lia) ltac:(rewrite upper_bound_eq; lia))
    as (s & Hs & Hwf & Hlen & Hc).
  exists s. split; [assumption|]. split; [|assumption].
  split; [assumption|]. intros v Hv. apply Hc. lia.
Qed.

(** Division bounded by the square root certifies primality. *)
Lemma no_divisor_upto_sound fuel :
  forall d n, 0 < d -> no_divisor_upto fuel d n = true ->
    forall e, d <= e -> e * e <= n -> ~ (e | n).
Proof.
  induction fuel as [|fuel IH]; intros d n Hd H e He Hee; simpl in H;
    destruct (Z.ltb_spec n (d * d)) as [Hlt|Hge]; try nia; try discriminate.
  apply andb_true_iff in H. destruct H as [Hmod H].
  apply negb_true_iff, Z.eqb_neq in Hmod.
  destruct (Z.eq_dec e d) as [->|Hne].
  - intros Hdiv. apply Hmod. apply Z.mod_divide; [lia | assumption].
  - apply (IH (d + 1) n); [lia | assumption | lia | assumption].
Qed.

Lemma prime_by_sqrt n :
  2 <= n -> no_divisor_upto (Z.to_nat (Z.sqrt n)) 2 n = true -> Z.prime n.
Proof.
  intros Hn Hall. destruct (prime_decidable n) as [|Hnp]; [assumption|exfalso].
  destruct (small_prime_divisor n Hn Hnp) as (p & Hp & Hd & Hpp).
  pose proof (Z.prime_ge_2 p Hp).
  exact (no_divisor_upto_sound _ 2 n ltac:(lia) Hall p ltac:(lia) Hpp Hd).
Qed.

(** [count_primes_in_interval] counts the primes of its interval. *)
Lemma count_primes_in_interval_counts start length :
  in_range start -> in_range length -> in_range (start + length) ->
  count_primes_in_interval start length = Ok (prime_count start length).
Proof.
  intros Hs Hl Hsum.
  destruct find_small_primes_spec as (small & Htab & Hok & Hlen).
  unfold count_primes_in_interval.
  apply (count_primes_in_interval_with_correct MAX_SIEVE_LENGTH
           ltac:(rewrite MAX_SIEVE_LENGTH_eq; lia) find_small_primes small);
    try assumption; rewrite Hlen, upper_bound_eq, ?MAX_SIEVE_LENGTH_eq;
    unfold in_range, min_signed, max_signed in *; lia.
Qed.

(* ===================================================================== *)
(** ** The naive sieve of the specification *)
(* ===================================================================== *)

Lemma as_sieve_wf l : wf (as_sieve l).
Proof. reflexivity. Qed.

Lemma cell_strike l v u :
  0 <= v < Z.of_nat (List.length l) -> 0 <= u ->
  (cell (as_sieve (strike l v)) u = false <->
   cell (as_sieve l) u = false \/ u = v).
Proof.
  intros Hv Hu.
  destruct (mark_composite_spec (as_sieve l) v (as_sieve_wf l) Hv)
    as (s' & Hm & _ & _ & Hc).
  unfold mark_composite in Hm. rewrite in_sieve_true in Hm by assumption.
  injection Hm as <-. exact (Hc u Hu).
Qed.

Lemma foldl_strike vs :
  forall l, (forall v, v ∈ vs -> 0 <= v < Z.of_nat (List.length l)) ->
    List.length (foldl strike l vs) = List.length l /\
    forall u, 0 <= u ->
      (cell (as_sieve (foldl strike l vs)) u = false <->
       cell (as_sieve l) u = false \/ u ∈ vs).
Proof.
  induction vs as [|v vs IH]; intros l Hin; simpl.
  - split; [reflexivity|]. intros u Hu. rewrite elem_of_nil. tauto.
  - assert (Hlen : List.length (strike l v) = List.length l)
      by (unfold strike; apply length_insert).
    destruct (IH (strike l v)) as [Hlen' Hc].
    { intros w Hw. rewrite Hlen. apply Hin. apply elem_of_cons. auto. }
    split; [congruence|]. intros u Hu.
    rewrite Hc by assumption.
    rewrite cell_strike by (auto; apply Hin, elem_of_cons; auto).
    rewrite elem_of_cons. tauto.
Qed.

Lemma naive_strike_multiples_spec n i l :
  2 <= i < n -> Z.of_nat (List.length l) = n ->
  Z.of_nat (List.length (naive_strike_multiples n i l)) = n /\
  forall u, 0 <= u ->
    (cell (as_sieve (naive_strike_multiples n i l)) u = false <->
     cell (as_sieve l) u = false \/ exists t, 2 <= t /\ u = i * t /\ u < n).
Proof.
  intros Hi Hlen. unfold naive_strike_multiples.
  set (vs := (fun j => i * j) <$> seqZ 2 ((n - 1) / i - 1)).
  assert (Hvs : forall u, u ∈ vs <-> exists t, 2 <= t /\ u = i * t /\ u < n).
  { intros u. unfold vs. rewrite list_elem_of_fmap. split.
    - intros (j & -> & Hj). apply elem_of_seqZ in Hj. exists j.
      pose proof (Z.mul_div_le (n - 1) i ltac:(lia)). split; [lia|].
      split; [reflexivity|nia].
    - intros (t & Ht & -> & Hlt). exists t. split; [reflexivity|].
      apply elem_of_seqZ.
      pose proof (Z.div_le_lower_bound (n - 1) i t ltac:(lia) ltac:(lia)). lia. }
  destruct (foldl_strike vs l) as [Hlen' Hc].
  { intros v Hv. apply Hvs in Hv. destruct Hv as (t & Ht & -> & Hlt). nia. }
  split; [lia|]. intros u Hu. rewrite Hc by assumption. rewrite Hvs. tauto.
Qed.

(** The first [k] steps of the naive scan establish the invariant of the
    basic sieve at index [2 + k]. *)
Lemma naive_scan_inv n :
  2 <= n ->
  forall k : nat, Z.of_nat k <= n - 2 ->
    sieve_inv n (2 + Z.of_nat k)
      (as_sieve (foldl (naive_step n)
                   (strike (strike (replicate (Z.to_nat n) true) 0) 1)
                   (seqZ 2 (Z.of_nat k)))).
Proof.
  intros Hn. induction k as [|k IH]; intros Hk.
  - rewrite seqZ_nil by lia. simpl foldl.
    assert (Hl0 : Z.of_nat (List.length (replicate (Z.to_nat n) true)) = n)
      by (rewrite length_replicate; lia).
    assert (Hl1 : Z.of_nat (List.length (strike (replicate (Z.to_nat n) true) 0)) = n)
      by (unfold strike; rewrite length_insert; assumption).
    apply sieve_inv_init; [apply as_sieve_wf | |].
    + unfold as_sieve, strike. simpl. rewrite !length_insert. assumption.
    + intros v Hv.
      rewrite cell_strike by lia. rewrite cell_strike by lia.
      unfold cell, as_sieve. simpl. rewrite lookup_replicate_2 by lia. simpl.
      split; [intros [[?|?]|?]; try discriminate; lia | intros; lia].
  - rewrite seqZ_S, foldl_snoc.
    specialize (IH ltac:(lia)).
    set (l := foldl (naive_step n) _ (seqZ 2 (Z.of_nat k))) in *.
    pose proof IH as (_ & Hlen & _). simpl in Hlen.
    replace (2 + Z.of_nat (S k)) with (2 + Z.of_nat k + 1) by lia.
    pose proof (sieve_inv_prime n (2 + Z.of_nat k) (as_sieve l) IH ltac:(lia)) as Hpi.
    unfold naive_step. change (default false (l !! Z.to_nat (2 + Z.of_nat k)))
      with (cell (as_sieve l) (2 + Z.of_nat k)).
    destruct (cell (as_sieve l) (2 + Z.of_nat k)).
    + destruct (naive_strike_multiples_spec n (2 + Z.of_nat k) l ltac:(lia) Hlen)
        as [Hlen' Hc].
      eapply sieve_inv_step_prime; eauto; [lia | apply Hpi; reflexivity | apply as_sieve_wf].
    + apply sieve_inv_step_composite; [lia | | assumption].
      intros Hp. apply Hpi in Hp. discriminate.
Qed.

(** The naive sieve over [[0, n)] holds the primality of every index. *)
Lemma naive_sieve_spec n : naive_sieve n = trialdiv_prime_p <$> seqZ 0 n.
Proof.
  unfold naive_sieve. destruct (Z_lt_le_dec n 2) as [Hlt|Hge].
  - rewrite (seqZ_nil 2) by lia. simpl foldl.
    destruct (Z_le_gt_dec n 0).
    + rewrite seqZ_nil by lia. replace (Z.to_nat n) with 0%nat by lia. reflexivity.
    + replace n with 1 by lia. reflexivity.
  - pose proof (naive_scan_inv n Hge (Z.to_nat (n - 2)) ltac:(lia)) as Hinv.
    rewrite Z2Nat.id in Hinv by lia.
    replace (2 + (n - 2)) with n in Hinv by lia.
    set (l := foldl (naive_step n) _ (seqZ 2 (n - 2))) in *.
    pose proof Hinv as (Hwf & Hlen & _).
    change l with (cells (as_sieve l)).
    replace (seqZ 0 n) with (seqZ 0 (len (as_sieve l))) by (rewrite Hlen; reflexivity).
    apply cells_trialdiv; [assumption|].
    intros idx Hidx. rewrite Z.add_0_l.
    apply (sieve_inv_done n); [assumption | lia].
Qed.

(** One unsegmented pass counts the primes of the range. *)
Lemma naive_count_spec start length :
  naive_count start length = prime_count start length.
Proof.
  unfold naive_count. rewrite naive_sieve_spec.
  set (a := Z.max 0 start).
  replace (Z.to_nat start) with (Z.to_nat a) by (unfold a; lia).
  destruct (Z_le_gt_dec (start + length) a) as [Hle|Hgt].
  - rewrite drop_ge by (rewrite length_fmap, length_seqZ; lia).
    change (count_true []) with 0. symmetry.
    destruct (Z_le_gt_dec length 0); [apply prime_count_nonpos; assumption|].
    apply prime_count_below_2. unfold a in Hle. lia.
  - replace (start + length) with (a + (start + length - a)) at 1 by lia.
    rewrite seqZ_app by (unfold a; lia). rewrite fmap_app.
    rewrite drop_app_length' by (rewrite length_fmap, length_seqZ; lia).
    rewrite Z.add_0_l, count_true_fmap. fold (prime_count a (start + length - a)).
    destruct (Z_lt_le_dec start 0) as [Hneg|Hpos].
    + replace a with 0 by (unfold a; lia).
      replace length with ((- start) + (start + length - 0)) at 2 by lia.
      rewrite prime_count_split by lia.
      rewrite (prime_count_below_2 start (- start)) by lia.
      replace (start + - start) with 0 by lia. lia.
    + replace a with start by (unfold a; lia). f_equal. lia.
Qed.

(* ===================================================================== *)
(** ** The specification, claim by claim *)
(* ===================================================================== *)

Ltac int64_bounds := apply in_range_intro; lia.

(** C1.  For all 64-bit [start] and [length] whose sum stays in the 64-bit
    signed range, [count_primes_in_interval] returns the number of primes
    in [[start, start + length)]; numbers below 2 are not prime
    ([trialdiv_prime_p_spec] relates the count to [Z.prime]).  In
    particular the five scenarios of the specification hold. *)
Theorem count_primes_in_interval_exact :
  (forall start length,
      in_range start -> in_range length -> in_range (start + length) ->
      count_primes_in_interval start length = Ok (prime_count start length)) /\
  count_primes_in_interval 0 10 = Ok 4 /\
  count_primes_in_interval 10 10 = Ok 4 /\
  count_primes_in_interval 0 2 = Ok 0 /\
  count_primes_in_interval (-5) 7 = Ok 0 /\
  count_primes_in_interval 2 1 = Ok 1.
Proof.
  split; [exact count_primes_in_interval_counts|].
  split; [|split; [|split; [|split]]];
    rewrite count_primes_in_interval_counts by int64_bounds; reflexivity.
Qed.

(** C1 at [start = 10], [length = 10]. *)
Lemma count_primes_in_interval_exact_witness :
  count_primes_in_interval 10 10 = Ok (prime_count 10 10).
Proof.
  apply (proj1 count_primes_in_interval_exact 10 10); int64_bounds.
Defined.

(** C2, as the code has it.  [find_small_primes] returns a sieve over
    [[0, U)] with [U = 3049426780], the product [1.42 * 2^31] truncated by
    the cast to [int64_t]; for every index [i] in [[0, U)] the cell of [i]
    reads true if and only if [i] is prime. *)
Theorem find_small_primes_table :
  exists small_primes,
    find_small_primes = Ok small_primes /\
    len small_primes = upper_bound /\
    upper_bound = 3049426780 /\
    forall i, 0 <= i < 3049426780 ->
      exists b, prime_p small_primes i = Ok b /\ (b = true <-> Z.prime i).
Proof.
  destruct find_small_primes_spec as (small & Htab & (Hwf & Hc) & Hlen).
  exists small. split; [assumption|]. split; [assumption|].
  split; [exact upper_bound_eq|].
  rewrite upper_bound_eq in Hlen.
  intros i Hi. exists (cell small i).
  split; [apply prime_p_cell; [assumption|lia] | apply Hc; lia].
Qed.

(** C2 as stated fails: the extent of the table is not the ceiling of
    [1.42 * 2^31]. *)
Lemma find_small_primes_extent_not_ceiling :
  exists small_primes,
    find_small_primes = Ok small_primes /\
    (len small_primes =? ceil_extent) = false.
Proof.
  destruct find_small_primes_spec as (small & Htab & _ & Hlen).
  exists small. split; [assumption|].
  rewrite Hlen, upper_bound_eq. reflexivity.
Qed.

(** C4, as the code has it.  The extent of the small-primes table is
    3049426780, the floor of [1.42 * 2^31]; its square exceeds [2^63], that
    is, the extent exceeds [2^31 * sqrt 2] and the square root of [2^63]; so
    every composite below [2^63] has a prime factor that is an index of
    the table. *)
Theorem upper_bound_covers_sqrt :
  upper_bound = 3049426780 /\
  upper_bound = (142 * 2 ^ 31) / 100 /\
  2 * (2 ^ 31 * 2 ^ 31) < upper_bound * upper_bound /\
  Z.sqrt (2 ^ 63) < upper_bound /\
  forall n, 2 <= n < 2 ^ 63 -> ~ Z.prime n ->
    exists p, Z.prime p /\ (p | n) /\ 0 <= p < upper_bound.
Proof.
  rewrite upper_bound_eq.
  split; [reflexivity|]. split; [reflexivity|]. split; [reflexivity|].
  split; [reflexivity|].
  intros n Hn Hnp.
  destruct (small_prime_divisor n ltac:(lia) Hnp) as (p & Hp & Hd & Hpp).
  pose proof (Z.prime_ge_2 p Hp).
  exists p. split; [assumption|]. split; [assumption|]. nia.
Qed.

(** C4 as stated fails twice: the extent is not the ceiling of
    [1.42 * 2^31], and the composite [2 * 3049426789], below [2^63], has
    the prime factor 3049426789, which is not an index of the table. *)
Lemma upper_bound_not_ceiling :
  (upper_bound =? ceil_extent) = false /\
  exists n q, 2 <= n < 2 ^ 63 /\ (2 | n) /\ 2 < n /\
              Z.prime q /\ (q | n) /\ upper_bound <= q.
Proof.
  rewrite upper_bound_eq. split; [reflexivity|].
  exists 6098853578, 3049426789.
  split; [lia|]. split; [exists 3049426789; reflexivity|]. split; [lia|].
  split; [apply prime_by_sqrt; [lia | vm_compute; reflexivity]|].
  split; [exists 2; reflexivity | lia].
Qed.

(** C5.  Segmentation does not change the result: on an interval that
    straddles a multiple of [MAX_SIEVE_LENGTH], [count_primes_in_interval]
    returns what one unsegmented pass of the naive sieve counts on the
    same range. *)
Theorem segmented_matches_naive start length k :
  in_range start -> in_range length -> in_range (start + length) ->
  start < k * MAX_SIEVE_LENGTH < start + length ->
  count_primes_in_interval start length = Ok (naive_count start length).
Proof.
  intros Hs Hl Hsum _.
  rewrite naive_count_spec. apply count_primes_in_interval_counts; assumption.
Qed.

(** C5 at [start = MAX_SIEVE_LENGTH - 5], [length = 10]. *)
Lemma segmented_matches_naive_witness :
  count_primes_in_interval (MAX_SIEVE_LENGTH - 5) 10
  = Ok (naive_count (MAX_SIEVE_LENGTH - 5) 10).
Proof.
  apply (segmented_matches_naive (MAX_SIEVE_LENGTH - 5) 10 1);
    rewrite ?MAX_SIEVE_LENGTH_eq; try int64_bounds; lia.
Defined.

(** C6.  Additivity: splitting a non-empty interval at a point [m] strictly
    inside it, the count of the whole is the sum of the counts of the two
    parts. *)
Theorem count_primes_in_interval_additive start length m :
  in_range start -> in_range length -> in_range (start + length) ->
  0 < length -> start < m < start + length ->
  exists n1 n2,
    count_primes_in_interval start (m - start) = Ok n1 /\
    count_primes_in_interval m (start + length - m) = Ok n2 /\
    count_primes_in_interval start length = Ok (n1 + n2).
Proof.
  unfold in_range, min_signed, max_signed. intros Hs Hl Hsum Hpos Hm.
  exists (prime_count start (m - start)), (prime_count m (start + length - m)).
  split; [apply count_primes_in_interval_counts; int64_bounds|].
  split; [apply count_primes_in_interval_counts; int64_bounds|].
  rewrite count_primes_in_interval_counts by int64_bounds. f_equal.
  replace length with ((m - start) + (start + length - m)) at 1 by lia.
  rewrite prime_count_split by lia.
  replace (start + (m - start)) with m by lia. reflexivity.
Qed.

(** C6 at [[0, 20)] split at 7. *)
Lemma count_primes_in_interval_additive_witness :
  exists n1 n2,
    count_primes_in_interval 0 (7 - 0) = Ok n1 /\
    count_primes_in_interval 7 (0 + 20 - 7) = Ok n2 /\
    count_primes_in_interval 0 20 = Ok (n1 + n2).
Proof.
  apply (count_primes_in_interval_additive 0 20 7); try int64_bounds; lia.
Defined.

(** C7.  Clamping: for [start < 2] with [2 < start + length] in range, the
    count equals the count over [[2, start + length)], the length being
    shrunk by [2 - start] in 64-bit arithmetic. *)
Theorem count_primes_in_interval_clamp start length :
  in_range start -> in_range length ->
  start < 2 -> 2 < start + length -> start + length <= max_signed ->
  count_primes_in_interval start length
  = count_primes_in_interval 2 (sub64 length (sub64 2 start)) /\
  count_primes_in_interval start length
  = Ok (prime_count 2 (start + length - 2)).
Proof.
  unfold in_range, min_signed, max_signed. intros Hs Hl Hlt H2 Hmax.
  rewrite (sub64_id 2 start) by int64_bounds.
  rewrite sub64_id by int64_bounds.
  rewrite (count_primes_in_interval_counts start length) by int64_bounds.
  rewrite (count_primes_in_interval_counts 2) by int64_bounds.
  rewrite (prime_count_clamp start length) by lia.
  replace (start + length - 2) with (length - (2 - start)) by lia.
  split; reflexivity.
Qed.

(** C7 at [start = -3], [length = 20]. *)
Lemma count_primes_in_interval_clamp_witness :
  count_primes_in_interval (-3) 20
  = count_primes_in_interval 2 (sub64 20 (sub64 2 (-3))) /\
  count_primes_in_interval (-3) 20 = Ok (prime_count 2 (-3 + 20 - 2)).
Proof.
  apply (count_primes_in_interval_clamp (-3) 20);
    try int64_bounds; unfold max_signed; lia.
Defined.

(** C8.  Degenerate intervals: a length of at most 0, or an upper end
    [start + length] of at most 2, gives 0. *)
Theorem count_primes_in_interval_degenerate start length :
  in_range start -> in_range length ->
  (length <= 0 -> count_primes_in_interval start length = Ok 0) /\
  (start + length <= 2 -> count_primes_in_interval start length = Ok 0).
Proof.
  intros Hs Hl. unfold count_primes_in_interval, count_primes_in_interval_with.
  destruct (traverse_interval_cases MAX_SIEVE_LENGTH find_small_primes
              add_segment_count 0 start length Hs Hl)
    as [[-> _]|(Hpos & Hsum & _)].
  - split; reflexivity.
  - split; intros; lia.
Qed.

(** C8 at [start = 7], [length = -4]. *)
Lemma count_primes_in_interval_degenerate_witness :
  (-4 <= 0 -> count_primes_in_interval 7 (-4) = Ok 0) /\
  (7 + -4 <= 2 -> count_primes_in_interval 7 (-4) = Ok 0).
Proof.
  apply (count_primes_in_interval_degenerate 7 (-4)); int64_bounds.
Defined.

(** A [mark_composite] succeeds exactly when its index is inside the sieve. *)
Lemma mark_composite_in_bounds s v :
  (exists s', mark_composite s v = Ok s') <-> 0 <= v < len s.
Proof.
  split.
  - intros [s' Hm]. unfold mark_composite, in_sieve in Hm.
    destruct (Z.leb_spec 0 v); destruct (Z.ltb_spec v (len s));
      simpl in Hm; try discriminate; lia.
  - intros Hv. unfold mark_composite. rewrite in_sieve_true by assumption. eauto.
Qed.

(** C3.  For a prime [p] read from a small-primes table (the table of the
    basic sieve over [[0, ub)]; the program's is the one with
    [ub = upper_bound]) and a segment starting at [start >= 2], the index
    [first_index start p] is the least [k >= 0] with [start + k] a multiple
    of [p] above [p]; and when [p] lies in the segment, its cell still
    reads true when the marking is over. *)
Theorem first_index_least start length ub small_primes p :
  2 <= start <= max_signed -> 0 < length -> length + ub <= max_signed ->
  2 <= ub <= 2 ^ 62 ->
  find_small_primes_upto ub = Ok small_primes ->
  2 <= p < ub -> prime_p small_primes p = Ok true ->
  (0 <= first_index start p /\
   (p | start + first_index start p) /\
   p < start + first_index start p /\
   forall k, 0 <= k -> (p | start + k) -> p < start + k ->
             first_index start p <= k) /\
  (start <= p < start + length ->
   exists large_primes,
     segment_sieve start length small_primes = Ok large_primes /\
     prime_p large_primes (p - start) = Ok true).
Proof.
  intros Hs Hl Hlu Hub Htab Hp Hread.
  destruct (first_index_spec start p Hs ltac:(lia)) as (Hk & Hd & Hgt & Hmin).
  split; [split; [lia|]; split; [assumption|]; split; assumption|].
  intros Hin.
  destruct (find_small_primes_upto_spec ub ltac:(lia) ltac:(lia))
    as (s & Hs' & Hwf & Hlen & Hc).
  rewrite Htab in Hs'. injection Hs' as <-.
  rewrite prime_p_cell in Hread by (auto; lia). injection Hread as Hread.
  destruct (segment_sieve_spec start length small_primes Hs Hl Hwf
              ltac:(lia) ltac:(lia)) as (large & Hseg & Hwfl & Hlenl & Hcl).
  exists large. split; [assumption|].
  rewrite prime_p_cell by (auto; lia). f_equal.
  destruct (cell large (p - start)) eqn:E; [reflexivity|exfalso].
  apply Hcl in E; [|lia]. destruct E as (q & Hq & Hcq & Hlt & Hdiv).
  replace (start + (p - start)) with p in * by lia.
  apply Hc in Hcq; [|lia]. apply Hc in Hread; [|lia].
  exact (prime_no_smaller_divisor p q Hread Hcq Hdiv Hlt).
Qed.

(** C3 at the segment [[4, 12)], the table over [[0, 8)] and [p = 5]. *)
Lemma first_index_least_witness :
  (0 <= first_index 4 5 /\
   (5 | 4 + first_index 4 5) /\
   5 < 4 + first_index 4 5 /\
   forall k, 0 <= k -> (5 | 4 + k) -> 5 < 4 + k -> first_index 4 5 <= k) /\
  (4 <= 5 < 4 + 8 ->
   exists large_primes,
     segment_sieve 4 8
       (mk_sieve 8 [false; false; true; true; false; true; false; true])
     = Ok large_primes /\
     prime_p large_primes (5 - 4) = Ok true).
Proof.
  apply (first_index_least 4 8 8
           (mk_sieve 8 [false; false; true; true; false; true; false; true]) 5);
    try (unfold max_signed; lia); reflexivity.
Defined.

(** C9.  Every call that [count_primes_in_interval] makes to
    [count_primes_in_interval_helper] passes a start of at least 2 and a
    length in [(0, MAX_SIEVE_LENGTH]]; [helper_calls] lists the calls, and
    the count is what the helper adds up over them. *)
Theorem helper_calls_in_precondition start length :
  in_range start -> in_range length ->
  exists small_primes calls,
    find_small_primes = Ok small_primes /\
    helper_calls start length = Ok calls /\
    count_primes_in_interval start length
    = visit_all add_segment_count small_primes calls 0 /\
    Forall (call_ok MAX_SIEVE_LENGTH) calls /\
    MAX_SIEVE_LENGTH = 2 ^ 30.
Proof.
  intros Hs Hl.
  destruct find_small_primes_spec as (small & Htab & _ & _).
  exists small.
  unfold helper_calls, helper_calls_with,
    count_primes_in_interval, count_primes_in_interval_with.
  destruct (traverse_interval_cases MAX_SIEVE_LENGTH find_small_primes
              record_call [] start length Hs Hl)
    as [[-> Hz]|(Hpos & Hsum & ->)];
  destruct (traverse_interval_cases MAX_SIEVE_LENGTH find_small_primes
              add_segment_count 0 start length Hs Hl)
    as [[-> Hz']|(Hpos' & Hsum' & ->)]; try lia.
  - exists []. split; [assumption|]. split; [reflexivity|].
    split; [reflexivity|]. split; [constructor | reflexivity].
  - rewrite Htab. unfold bind.
    destruct (segment_loop_calls MAX_SIEVE_LENGTH
                ltac:(rewrite MAX_SIEVE_LENGTH_eq; lia) small
                (Z.to_nat (start + length - Z.max 2 start))
                (Z.max 2 start) (start + length - Z.max 2 start)
                ltac:(lia) ltac:(lia) ltac:(lia) ltac:(lia))
      as (calls & Hok & Hrec & Hvis).
    exists calls. split; [reflexivity|]. split; [apply (Hrec [])|].
    split; [apply Hvis|]. split; [assumption | reflexivity].
Qed.

(** C9 at [start = -7], [length = 5000000000]. *)
Lemma helper_calls_in_precondition_witness :
  exists small_primes calls,
    find_small_primes = Ok small_primes /\
    helper_calls (-7) 5000000000 = Ok calls /\
    count_primes_in_interval (-7) 5000000000
    = visit_all add_segment_count small_primes calls 0 /\
    Forall (call_ok MAX_SIEVE_LENGTH) calls /\
    MAX_SIEVE_LENGTH = 2 ^ 30.
Proof.
  apply (helper_calls_in_precondition (-7) 5000000000); int64_bounds.
Defined.

(** C10.  Under [start >= 2] and [0 < length <= MAX_SIEVE_LENGTH], and for
    any well-formed table of extent at most [2^62], the helper builds its
    segment sieve of extent [length] and returns without an out-of-bounds
    access: every [mark_composite] it makes has its index in
    [[0, length)].  So does [find_small_primes] on its sieve of extent
    [upper_bound].  ([mark_composite] fails exactly outside the sieve, and
    a failure ends the computation.) *)
Theorem marking_in_bounds start length small_primes :
  wf small_primes -> len small_primes <= 2 ^ 62 ->
  2 <= start <= max_signed -> 0 < length <= MAX_SIEVE_LENGTH ->
  (exists large_primes n,
     segment_sieve start length small_primes = Ok large_primes /\
     len large_primes = length /\
     count_primes_in_interval_helper start length small_primes = Ok n) /\
  (exists sieve,
     find_small_primes = Ok sieve /\ wf sieve /\ len sieve = upper_bound) /\
  (forall s v, (exists s', mark_composite s v = Ok s') <-> 0 <= v < len s).
Proof.
  intros Hwf Hlen Hs Hl. rewrite MAX_SIEVE_LENGTH_eq in Hl.
  split; [|split].
  - destruct (helper_counts_cells start length small_primes Hs ltac:(lia) Hwf Hlen
                ltac:(unfold max_signed; lia))
      as (large & Hseg & _ & Hlenl & Hcount).
    exists large, (count_true (cells large)).
    split; [assumption|]. split; assumption.
  - destruct find_small_primes_spec as (s & Htab & (Hwfs & _) & Hlens).
    exists s. split; [assumption|]. split; assumption.
  - exact mark_composite_in_bounds.
Qed.

(** C10 at the segment [[2, 7)] and the table over [[0, 4)]. *)
Lemma marking_in_bounds_witness :
  (exists large_primes n,
     segment_sieve 2 5 (mk_sieve 4 [false; false; true; true]) = Ok large_primes /\
     len large_primes = 5 /\
     count_primes_in_interval_helper 2 5 (mk_sieve 4 [false; false; true; true])
     = Ok n) /\
  (exists sieve,
     find_small_primes = Ok sieve /\ wf sieve /\ len sieve = upper_bound) /\
  (forall s v, (exists s', mark_composite s v = Ok s') <-> 0 <= v < len s).
Proof.
  apply (marking_in_bounds 2 5 (mk_sieve 4 [false; false; true; true]));
    first [reflexivity | unfold max_signed; simpl; lia | vm_compute; intuition discriminate].
Defined.

(* ===================================================================== *)
(** ** Further properties of the code *)
(* ===================================================================== *)

(** The table of the basic sieve over [[0, ub)] is a correct table. *)
Lemma basic_table_ok ub small_primes :
  2 <= ub <= 2 ^ 62 -> find_small_primes_upto ub = Ok small_primes ->
  table_ok small_primes /\ len small_primes = ub.
Proof.
  intros Hub Htab.
  destruct (find_small_primes_upto_spec ub ltac:(lia) ltac:(lia))
    as (s & Hs & Hwf & Hlen & Hc).
  rewrite Htab in Hs. injection Hs as <-.
  split; [|assumption]. split; [assumption|].
  intros v Hv. apply Hc. lia.
Qed.

Lemma prime_count_mono start l1 l2 :
  l1 <= l2 -> prime_count start l1 <= prime_count start l2.
Proof.
  intros Hle. destruct (Z_le_gt_dec l1 0).
  - rewrite (prime_count_nonpos start l1) by assumption.
    apply prime_count_bounds.
  - replace l2 with (l1 + (l2 - l1)) by lia.
    rewrite prime_count_split by lia.
    pose proof (prime_count_bounds (start + l1) (l2 - l1)). lia.
Qed.

Lemma prime_count_from_2 start length :
  prime_count start length <= Z.max 0 (start + length - 2).
Proof.
  destruct (Z_le_gt_dec (start + length) 2).
  - rewrite prime_count_below_2 by assumption. lia.
  - destruct (Z_lt_le_dec start 2).
    + rewrite prime_count_clamp by lia.
      pose proof (prime_count_bounds 2 (length - (2 - start))). lia.
    + pose proof (prime_count_bounds start length). lia.
Qed.

(** A call with a length of at most 0 returns 0, whatever the start. *)
Lemma count_primes_in_interval_nonpos start length :
  length <= 0 -> count_primes_in_interval start length = Ok 0.
Proof.
  intros H. unfold count_primes_in_interval, count_primes_in_interval_with,
    traverse_interval.
  destruct (Z.leb_spec length 0); [reflexivity|lia].
Qed.

(** X1.  The contract of [count_primes_in_interval_helper]: given the table
    of the basic sieve over [[0, ub)], a start of at least 2 and a positive
    length, with the segment below [ub * ub], it returns the number of
    primes in [[start, start + length)]. *)
Theorem helper_counts_primes start length ub small_primes :
  2 <= start <= max_signed -> 0 < length ->
  2 <= ub <= 2 ^ 62 -> length + ub <= max_signed ->
  start + length <= ub * ub ->
  find_small_primes_upto ub = Ok small_primes ->
  count_primes_in_interval_helper start length small_primes
  = Ok (prime_count start length).
Proof.
  intros Hs Hl Hub Hlu Hcov Htab.
  destruct (basic_table_ok ub small_primes Hub Htab) as [Hok Hlen].
  pose proof Hok as (Hwf & _).
  apply helper_correct; try assumption; rewrite Hlen; lia.
Qed.

(** X1 at the segment [[10, 20)] and the table over [[0, 8)]. *)
Lemma helper_counts_primes_witness :
  count_primes_in_interval_helper 10 10
    (mk_sieve 8 [false; false; true; true; false; true; false; true])
  = Ok (prime_count 10 10).
Proof.
  apply (helper_counts_primes 10 10 8); try (unfold max_signed; lia); reflexivity.
Defined.

(** X2.  When the marking loop of the helper is over, entry [i] of the
    segment sieve records the primality of [start + i]: it reads true if
    and only if [start + i] is prime. *)
Theorem segment_sieve_records_primality start length ub small_primes :
  2 <= start <= max_signed -> 0 < length ->
  2 <= ub <= 2 ^ 62 -> length + ub <= max_signed ->
  start + length <= ub * ub ->
  find_small_primes_upto ub = Ok small_primes ->
  exists large_primes,
    segment_sieve start length small_primes = Ok large_primes /\
    len large_primes = length /\
    forall i, 0 <= i < length ->
      exists b, prime_p large_primes i = Ok b /\
                (b = true <-> Z.prime (start + i)).
Proof.
  intros Hs Hl Hub Hlu Hcov Htab.
  destruct (basic_table_ok ub small_primes Hub Htab) as [Hok Hlen].
  pose proof Hok as (Hwf & _).
  destruct (segment_sieve_prime start length small_primes Hs Hl Hwf
              ltac:(lia) ltac:(lia) Hok ltac:(rewrite Hlen; lia))
    as (large & Hseg & Hwfl & Hlenl & Hc).
  exists large. split; [assumption|]. split; [assumption|].
  intros i Hi. exists (cell large i).
  split; [apply prime_p_cell; [assumption|lia] | apply Hc; assumption].
Qed.

(** X2 at the segment [[10, 20)] and the table over [[0, 8)]. *)
Lemma segment_sieve_records_primality_witness :
  exists large_primes,
    segment_sieve 10 10
      (mk_sieve 8 [false; false; true; true; false; true; false; true])
    = Ok large_primes /\
    len large_primes = 10 /\
    forall i, 0 <= i < 10 ->
      exists b, prime_p large_primes i = Ok b /\
                (b = true <-> Z.prime (10 + i)).
Proof.
  apply (segment_sieve_records_primality 10 10 8);
    try (unfold max_signed; lia); reflexivity.
Defined.

(** X3.  Monotonicity: for a fixed start the count does not decrease when
    the length grows. *)
Theorem count_primes_in_interval_monotone start length1 length2 :
  in_range start -> in_range length1 -> in_range length2 ->
  in_range (start + length2) -> length1 <= length2 ->
  exists n1 n2,
    count_primes_in_interval start length1 = Ok n1 /\
    count_primes_in_interval start length2 = Ok n2 /\
    n1 <= n2.
Proof.
  unfold in_range, min_signed, max_signed. intros Hs Hl1 Hl2 Hsum Hle.
  exists (prime_count start length1), (prime_count start length2).
  split; [|split].
  - destruct (Z_le_gt_dec length1 0).
    + rewrite prime_count_nonpos by assumption.
      apply count_primes_in_interval_nonpos. assumption.
    + apply count_primes_in_interval_counts; int64_bounds.
  - apply count_primes_in_interval_counts; int64_bounds.
  - apply prime_count_mono. assumption.
Qed.

(** X3 at [start = 0] with the lengths 10 and 20. *)
Lemma count_primes_in_interval_monotone_witness :
  exists n1 n2,
    count_primes_in_interval 0 10 = Ok n1 /\
    count_primes_in_interval 0 20 = Ok n2 /\
    n1 <= n2.
Proof.
  apply (count_primes_in_interval_monotone 0 10 20); try int64_bounds; lia.
Defined.

(** X4.  The result is never negative, never exceeds the length of the
    interval, and never exceeds the number of integers from 2 up to the
    end of the interval. *)
Theorem count_primes_in_interval_bounds start length :
  in_range start -> in_range length -> in_range (start + length) ->
  exists n,
    count_primes_in_interval start length = Ok n /\
    0 <= n /\ n <= Z.max 0 length /\ n <= Z.max 0 (start + length - 2).
Proof.
  intros Hs Hl Hsum. exists (prime_count start length).
  split; [apply count_primes_in_interval_counts; assumption|].
  pose proof (prime_count_bounds start length).
  pose proof (prime_count_from_2 start length). lia.
Qed.

(** X4 at [start = -100], [length = 110]. *)
Lemma count_primes_in_interval_bounds_witness :
  exists n,
    count_primes_in_interval (-100) 110 = Ok n /\
    0 <= n /\ n <= Z.max 0 110 /\ n <= Z.max 0 (-100 + 110 - 2).
Proof.
  apply (count_primes_in_interval_bounds (-100) 110); int64_bounds.
Defined.

Lemma count_true_le l1 l2 :
  Forall2 (fun a b : bool => a = true -> b = true) l1 l2 ->
  count_true l1 <= count_true l2.
Proof.
  induction 1 as [|a b l1 l2 Hab _ IH]; [lia|].
  rewrite !count_true_cons. destruct a.
  - rewrite (Hab eq_refl). lia.
  - destruct b; lia.
Qed.

(** X5.  The helper never marks a prime, however short the table: given
    the table of the basic sieve over any [[0, ub)], its result is at
    least the number of primes of the segment, and at most the length.
    (A table whose square does not cover the segment can leave
    composites unmarked, so the result can exceed the number of primes.) *)
Theorem helper_never_undercounts start length ub small_primes :
  2 <= start <= max_signed -> 0 < length ->
  2 <= ub <= 2 ^ 62 -> length + ub <= max_signed ->
  find_small_primes_upto ub = Ok small_primes ->
  exists n,
    count_primes_in_interval_helper start length small_primes = Ok n /\
    prime_count start length <= n <= length.
Proof.
  intros Hs Hl Hub Hlu Htab.
  destruct (basic_table_ok ub small_primes Hub Htab) as [(Hwf & Hc) Hlen].
  destruct (helper_counts_cells start length small_primes Hs Hl Hwf
              ltac:(lia) ltac:(lia)) as (large & Hseg & Hwfl & Hlenl & ->).
  destruct (segment_sieve_spec start length small_primes Hs Hl Hwf
              ltac:(lia) ltac:(lia)) as (large' & Hseg' & _ & _ & Hcl).
  rewrite Hseg in Hseg'. injection Hseg' as <-.
  eexists. split; [reflexivity|]. split.
  - unfold prime_count. rewrite <- count_true_fmap. apply count_true_le.
    apply Forall2_same_length_lookup_2.
    { rewrite length_fmap, length_seqZ. unfold wf in Hwfl. lia. }
    intros i x y Hx Hy Hxt. subst x.
    rewrite list_lookup_fmap in Hx.
    destruct (seqZ start length !! i) as [n|] eqn:Hn; [|discriminate].
    apply lookup_seqZ in Hn. destruct Hn as [-> Hi].
    simpl in Hx. injection Hx as Hx. apply trialdiv_prime_p_spec in Hx.
    replace i with (Z.to_nat (Z.of_nat i)) in Hy by lia.
    rewrite lookup_cell in Hy by (auto; lia). injection Hy as <-.
    destruct (cell large (Z.of_nat i)) eqn:E; [reflexivity|exfalso].
    apply Hcl in E; [|lia]. destruct E as (q & Hq & Hcq & Hlt & Hd).
    apply Hc in Hcq; [|lia].
    exact (prime_no_smaller_divisor _ q Hx Hcq Hd Hlt).
  - pose proof (count_true_bounds (cells large)). unfold wf in Hwfl. lia.
Qed.

(** X5 at the segment [[20, 30)] and the table over [[0, 4)], which is too
    short to mark 25. *)
Lemma helper_never_undercounts_witness :
  exists n,
    count_primes_in_interval_helper 20 10 (mk_sieve 4 [false; false; true; true])
    = Ok n /\
    prime_count 20 10 <= n <= 10.
Proof.
  apply (helper_never_undercounts 20 10 4);
    try (unfold max_signed; lia); reflexivity.
Defined.

(** The segments the loop visits follow one another from [start] to
    [start + length]; all but the last are full; there are
    [ceil (length / max_sieve_length)] of them. *)
Lemma segment_loop_tiles max_sieve_length small_primes :
  0 < max_sieve_length ->
  forall fuel start length,
    0 < length -> 2 <= start -> start + length <= max_signed ->
    length <= Z.of_nat fuel ->
    exists calls,
      (forall calls0,
         segment_loop max_sieve_length record_call fuel small_primes
                      start length calls0 = Ok (calls0 ++ calls)) /\
      tiles start calls (start + length) /\
      full_but_last max_sieve_length calls /\
      Z.of_nat (List.length calls)
      = (length + max_sieve_length - 1) / max_sieve_length.
Proof.
  unfold in_range, min_signed, max_signed. intros HM.
  induction fuel as [|fuel IH]; intros start length Hl Hs Hsum Hfuel; [lia|].
  simpl. destruct (Z.ltb_spec max_sieve_length length) as [Hlt|Hge].
  - rewrite add64_id by (apply in_range_intro; lia).
    rewrite sub64_id by (apply in_range_intro; lia).
    destruct (IH (start + max_sieve_length) (length - max_sieve_length)
                ltac:(lia) ltac:(lia) ltac:(lia) ltac:(lia))
      as (calls & Hrec & Htiles & Hfull & Hcount).
    exists ((start, max_sieve_length) :: calls). split; [|split; [|split]].
    + intros calls0. unfold record_call at 1. simpl. rewrite Hrec.
      rewrite <- app_assoc. reflexivity.
    + simpl. split; [reflexivity|].
      replace (start + length)
        with (start + max_sieve_length + (length - max_sieve_length)) by lia.
      assumption.
    + intros [|i] call Hcall Hi; simpl in *.
      * injection Hcall as <-. reflexivity.
      * apply (Hfull i call Hcall). lia.
    + simpl List.length. rewrite Nat2Z.inj_succ, Hcount.
      replace (length + max_sieve_length - 1)
        with (length - max_sieve_length + max_sieve_length - 1
              + 1 * max_sieve_length) by lia.
      rewrite Z.div_add by lia. lia.
  - exists [(start, length)]. split; [|split; [|split]].
    + intros calls0. reflexivity.
    + simpl. split; reflexivity.
    + intros [|i] call Hcall Hi; simpl in *; lia.
    + change (Z.of_nat (List.length [(start, length)])) with 1.
      apply (Z.div_unique _ _ 1 (length - 1)); lia.
Qed.

(** X6.  For a non-degenerate interval the segments passed to the helper
    tile the clamped interval: the first starts at [max 2 start], each
    next one starts where the one before ends, the last ends at
    [start + length]; every segment but the last has length
    [MAX_SIEVE_LENGTH], and their number is the clamped length divided by
    [MAX_SIEVE_LENGTH], rounded up. *)
Theorem helper_calls_tile_interval start length :
  in_range start -> in_range length ->
  0 < length -> 2 < start + length <= max_signed ->
  exists calls,
    helper_calls start length = Ok calls /\
    tiles (Z.max 2 start) calls (start + length) /\
    full_but_last MAX_SIEVE_LENGTH calls /\
    Z.of_nat (List.length calls)
    = (start + length - Z.max 2 start + MAX_SIEVE_LENGTH - 1) / MAX_SIEVE_LENGTH.
Proof.
  intros Hs Hl Hpos Hsum.
  destruct find_small_primes_spec as (small & Htab & _ & _).
  unfold helper_calls, helper_calls_with.
  destruct (traverse_interval_cases MAX_SIEVE_LENGTH find_small_primes
              record_call [] start length Hs Hl)
    as [[_ Hz]|(_ & _ & ->)]; [lia|].
  rewrite Htab. unfold bind.
  destruct (segment_loop_tiles MAX_SIEVE_LENGTH small
              ltac:(rewrite MAX_SIEVE_LENGTH_eq; lia)
              (Z.to_nat (start + length - Z.max 2 start))
              (Z.max 2 start) (start + length - Z.max 2 start)
              ltac:(lia) ltac:(lia) ltac:(lia) ltac:(lia))
    as (calls & Hrec & Htiles & Hfull & Hcount).
  exists calls. split; [apply (Hrec [])|].
  replace (Z.max 2 start + (start + length - Z.max 2 start))
    with (start + length) in Htiles by lia.
  split; [assumption|]. split; assumption.
Qed.

(** X6 at [start = -7], [length = 5000000000]. *)
Lemma helper_calls_tile_interval_witness :
  exists calls,
    helper_calls (-7) 5000000000 = Ok calls /\
    tiles (Z.max 2 (-7)) calls (-7 + 5000000000) /\
    full_but_last MAX_SIEVE_LENGTH calls /\
    Z.of_nat (List.length calls)
    = (-7 + 5000000000 - Z.max 2 (-7) + MAX_SIEVE_LENGTH - 1) / MAX_SIEVE_LENGTH.
Proof.
  apply (helper_calls_tile_interval (-7) 5000000000);
    try int64_bounds; unfold max_signed; lia.
Defined.

(** X7.  The result does not depend on the two constants of the program:
    with any positive segment size in place of [MAX_SIEVE_LENGTH] and the
    basic sieve over any [[0, ub)] in place of [find_small_primes], the
    count is the number of primes of the interval, as long as the
    interval ends at or below [ub * ub]. *)
Theorem count_independent_of_constants max_sieve_length ub start length :
  0 < max_sieve_length -> 2 <= ub <= 2 ^ 62 ->
  max_sieve_length + ub <= max_signed ->
  in_range start -> in_range length -> in_range (start + length) ->
  start + length <= ub * ub ->
  count_primes_in_interval_with max_sieve_length (find_small_primes_upto ub)
                                start length
  = Ok (prime_count start length).
Proof.
  intros HM Hub HMu Hs Hl Hsum Hcov.
  destruct (find_small_primes_upto_spec ub ltac:(lia) ltac:(lia))
    as (small & Htab & _).
  destruct (basic_table_ok ub small Hub Htab) as [Hok Hlen].
  apply (count_primes_in_interval_with_correct max_sieve_length HM
           (find_small_primes_upto ub) small);
    try assumption; rewrite Hlen; lia.
Qed.

(** X7 with segments of 8 cells and the table over [[0, 12)], on
    [[0, 100)]. *)
Lemma count_independent_of_constants_witness :
  count_primes_in_interval_with 8 (find_small_primes_upto 12) 0 100
  = Ok (prime_count 0 100).
Proof.
  apply (count_independent_of_constants 8 12 0 100);
    try int64_bounds; unfold max_signed; lia.
Defined.

(** X8.  The sum [start + kp_index] that the helper compares with [p] is
    the least multiple of [p] from [start] on, so it lies in
    [[start, start + p)].  For a start within [p] of the largest 64-bit
    value it can exceed that value; the wrapped sum is then negative, the
    comparison with [p] fails and [kp_index] is left as it is. *)
Theorem kp_sum_range start p :
  2 <= start <= max_signed -> 2 <= p <= 2 ^ 62 ->
  start <= start + kp_offset start p < start + p /\
  (p | start + kp_offset start p) /\
  (max_signed < start + kp_offset start p ->
   add64 start (kp_offset start p) < 0 /\
   first_index start p = kp_offset start p).
Proof.
  unfold max_signed. intros Hs Hp.
  change (first_index start p)
    with (if add64 start (kp_offset start p) =? p
          then add64 (kp_offset start p) p else kp_offset start p).
  unfold kp_offset, rem64.
  rewrite Z.rem_mod_nonneg by lia.
  pose proof (Z.mod_pos_bound start p ltac:(lia)) as Hr.
  pose proof (Z.div_mod start p ltac:(lia)) as Hdm.
  set (r := start mod p) in *. set (q := start / p) in *.
  rewrite (wrap64_id r) by (apply in_range_intro; lia).
  set (k0 := if negb (0 =? r) then sub64 p r else r).
  assert (Hk0 : 0 <= k0 < p /\ (p | start + k0)).
  { subst k0. destruct (Z.eqb_spec 0 r) as [E|E]; simpl.
    - split; [lia|]. exists q. lia.
    - rewrite sub64_id by (apply in_range_intro; lia).
      split; [lia|]. exists (q + 1). lia. }
  destruct Hk0 as [Hk0 Hd].
  split; [lia|]. split; [assumption|].
  intros Hover. unfold add64 at 1 2. rewrite wrap64_high by lia.
  split; [lia|].
  destruct (Z.eqb_spec (start + k0 - 2 ^ 64) p); [lia|reflexivity].
Qed.

(** X8 at [start = 2^63 - 2] and [p = 5], where the sum is [2^63 + 2]. *)
Lemma kp_sum_range_witness :
  add64 (2 ^ 63 - 2) (kp_offset (2 ^ 63 - 2) 5) < 0 /\
  first_index (2 ^ 63 - 2) 5 = kp_offset (2 ^ 63 - 2) 5.
Proof.
  apply (proj2 (proj2 (kp_sum_range (2 ^ 63 - 2) 5
                         ltac:(unfold max_signed; lia) ltac:(lia))));
    vm_compute; reflexivity.
Defined.
